(** * Drive Audio Link Extractor: a shallow embedding of [app.py]

    The program turns a Google Drive folder reference into a CSV of the
    audio files found below that folder.  This file embeds its functions
    ([is_audio_file], [extract_folder_id], [get_drive_service],
    [list_children], [scan_folder_recursive], [run_extraction]) and proves
    the properties stated about them.

    Conventions.
    - A Python [str] is a [string] (its UTF-8 bytes).  [str.lower] is
      modelled on the ASCII letters and leaves every other character as
      it is: outside ASCII only U+0130 and U+212A lower to text with an
      ASCII letter (i and k), and no audio extension has an i or a k, so
      the suffix test of [is_audio_file] is not affected.
    - A JSON object returned by the Drive API is a [gmap string string];
      [d.get(k, default)] with the empty string as default is [get_str].
    - The Drive backend is a function from a folder id and a page token to
      a response; the Streamlit calls and the requests sent to Drive are
      recorded as events in the application state. *)

From Stdlib Require Import Ascii String List Arith Lia Bool.
From stdpp Require Import gmap strings list fin_maps pretty.

Local Open Scope string_scope.
Local Open Scope list_scope.

(* ===================================================================== *)
(** * Part I: definitions *)
(* ===================================================================== *)

(** ** Strings *)

Module Str.

(** [str.lower] on one character: [A]..[Z] move to [a]..[z]. *)
Definition lower_ascii (c : ascii) : ascii :=
  let n := nat_of_ascii c in
  if Nat.leb 65 n && Nat.leb n 90 then ascii_of_nat (n + 32) else c.

Fixpoint lower (s : string) : string :=
  match s with
  | EmptyString => EmptyString
  | String c s' => String (lower_ascii c) (lower s')
  end.

(** [s[n:]] *)
Fixpoint drop (n : nat) (s : string) : string :=
  match n, s with
  | S n', String _ s' => drop n' s'
  | _, _ => s
  end.

(** [s[:n]] *)
Fixpoint take (n : nat) (s : string) : string :=
  match n, s with
  | S n', String c s' => String c (take n' s')
  | _, _ => EmptyString
  end.

(** [s.endswith(suf)] *)
Definition endswith (s suf : string) : bool :=
  Nat.leb (String.length suf) (String.length s) &&
  String.eqb (drop (String.length s - String.length suf) s) suf.

(** [sep.join(parts)] *)
Fixpoint join (sep : string) (parts : list string) : string :=
  match parts with
  | [] => EmptyString
  | [p] => p
  | p :: rest => p +:+ sep +:+ join sep rest
  end.

(** [str(n)] for a non-negative integer *)
Definition of_nat (n : nat) : string := pretty n.

End Str.

(** ** Audio classification *)

(** The set literal [AUDIO_EXTENSIONS], listed in the order it is written;
    [any] over it does not depend on the iteration order
    (see [is_audio_file_order_irrelevant]). *)
Definition AUDIO_EXTENSIONS : list string :=
  [".mp3"; ".wav"; ".m4a"; ".aac"; ".flac"; ".ogg"; ".opus"; ".wma"].

Definition is_audio_file_in (exts : list string) (name : string) : bool :=
  let name := Str.lower name in
  existsb (fun ext => Str.endswith name ext) exts.

Definition is_audio_file (name : string) : bool :=
  is_audio_file_in AUDIO_EXTENSIONS name.

(** ** Regular expressions

    The fragment of Python's [re] syntax that the four patterns of
    [extract_folder_id] are written in, with the backtracking semantics of
    [re.search]: the leftmost start position that admits a match wins,
    and a repetition is greedy. *)

Module Re.

Inductive class_item :=
| Range (lo hi : ascii)      (* [lo-hi] *)
| Single (c : ascii).        (* one listed character *)

Inductive regex :=
| Chr (c : ascii)                              (* a literal character *)
| Cls (items : list class_item) (min : nat)    (* [items]{min,}; [+] is {1,} *)
| Cat (r1 r2 : regex)                          (* r1 r2 *)
| Grp (r : regex)                              (* ( r ), group 1 *)
| Bol                                          (* ^ *)
| Eol.                                         (* $ *)

(** A literal string followed by [rest]. *)
Fixpoint lit (s : string) (rest : regex) : regex :=
  match s with
  | EmptyString => rest
  | String c s' => Cat (Chr c) (lit s' rest)
  end.

Definition in_item (c : ascii) (it : class_item) : bool :=
  match it with
  | Range lo hi =>
      Nat.leb (nat_of_ascii lo) (nat_of_ascii c) &&
      Nat.leb (nat_of_ascii c) (nat_of_ascii hi)
  | Single c' => Ascii.eqb c c'
  end.

Definition in_class (items : list class_item) (c : ascii) : bool :=
  existsb (in_item c) items.

(** What a successful match reports: [m.group(1)], which is [None] when
    group 1 took no part in the match. *)
Definition Match := option string.

(** The continuation receives: whether the position is still the start
    of the subject, the rest of the subject, and group 1 so far. *)
Definition Cont := bool -> string -> option string -> option Match.

(** The text between two positions, the second given by what is left. *)
Definition consumed (s rest : string) : string :=
  Str.take (String.length s - String.length rest) s.

(** Greedy [[items]{min,}]: take one more character when possible and
    come back to the shorter repetition when the rest fails. *)
Fixpoint rep (items : list class_item) (min : nat) (bol : bool)
    (s : string) (g : option string) (k : Cont) : option Match :=
  let stop := if Nat.eqb min 0 then k bol s g else None in
  match s with
  | String c s' =>
      if in_class items c then
        match rep items (pred min) false s' g k with
        | Some m => Some m
        | None => stop
        end
      else stop
  | EmptyString => stop
  end.

(** [$] without MULTILINE: at the end, or before a final newline. *)
Definition at_eol (s : string) : bool :=
  match s with
  | EmptyString => true
  | String c EmptyString => Ascii.eqb c "010"
  | _ => false
  end.

Fixpoint rmatch (r : regex) (bol : bool) (s : string) (g : option string)
    (k : Cont) : option Match :=
  match r with
  | Chr c =>
      match s with
      | String c' s' => if Ascii.eqb c' c then k false s' g else None
      | EmptyString => None
      end
  | Cls items min => rep items min bol s g k
  | Cat r1 r2 => rmatch r1 bol s g (fun b s' g' => rmatch r2 b s' g' k)
  | Grp r1 => rmatch r1 bol s g (fun b s' _ => k b s' (Some (consumed s s')))
  | Bol => if bol then k bol s g else None
  | Eol => if at_eol s then k bol s g else None
  end.

(** A match that starts exactly here. *)
Definition match_here (r : regex) (bol : bool) (s : string) : option Match :=
  rmatch r bol s None (fun _ _ g => Some g).

(** Try every start position from left to right. *)
Fixpoint search_from (r : regex) (bol : bool) (s : string) : option Match :=
  match match_here r bol s with
  | Some m => Some m
  | None =>
      match s with
      | String _ s' => search_from r false s'
      | EmptyString => None
      end
  end.

(** [re.search(r, s)] *)
Definition search (r : regex) (s : string) : option Match :=
  search_from r true s.

End Re.

(** ** Folder reference parsing *)

(** [[a-zA-Z0-9_-]] *)
Definition ID_CLASS : list Re.class_item :=
  [Re.Range "a" "z"; Re.Range "A" "Z"; Re.Range "0" "9";
   Re.Single "_"; Re.Single "-"].

Definition PAT_FOLDERS : Re.regex :=        (* /folders/([a-zA-Z0-9_-]+) *)
  Re.lit "/folders/" (Re.Grp (Re.Cls ID_CLASS 1)).
Definition PAT_DRIVE_FOLDERS : Re.regex :=  (* /drive/folders/([a-zA-Z0-9_-]+) *)
  Re.lit "/drive/folders/" (Re.Grp (Re.Cls ID_CLASS 1)).
Definition PAT_ID_PARAM : Re.regex :=       (* id=([a-zA-Z0-9_-]+) *)
  Re.lit "id=" (Re.Grp (Re.Cls ID_CLASS 1)).
Definition PAT_BARE_ID : Re.regex :=        (* ^([a-zA-Z0-9_-]{25,})$ *)
  Re.Cat Re.Bol (Re.Cat (Re.Grp (Re.Cls ID_CLASS 25)) Re.Eol).

Definition patterns : list Re.regex :=
  [PAT_FOLDERS; PAT_DRIVE_FOLDERS; PAT_ID_PARAM; PAT_BARE_ID].

(** The [for p in patterns] loop: the first pattern found in [url] decides,
    and the result is its [m.group(1)]. *)
Fixpoint extract_with (ps : list Re.regex) (url : string) : option string :=
  match ps with
  | [] => None
  | p :: ps' =>
      match Re.search p url with
      | Some m => m
      | None => extract_with ps' url
      end
  end.

Definition extract_folder_id (url : string) : option string :=
  extract_with patterns url.

(** ** The Drive backend and the application state *)

(** A file resource as the API returns it: a JSON object with string
    values (id, name, mimeType, createdTime, webViewLink). *)
Abbreviation DriveItem := (gmap string string).

(** [d.get(key, default)] with the empty string as default *)
Definition get_str (d : gmap string string) (key : string) : string :=
  default EmptyString (d !! key).

(** One page of a [files().list] call; either key can be missing. *)
Record Response := {
  files : option (list DriveItem);
  nextPageToken : option string;
}.

(** The backend answers a listing request for the children of a folder
    (the query [q = '<folder_id>' in parents and trashed=false], with the
    Shared Drive flags set and a page size of 1000) at a page token. *)
Definition Drive := string -> option string -> Response.

Inductive Event :=
| StError (msg : string)
| StSpinner (msg : string)
| StSuccess (msg : string)
| StWarning (msg : string)
| StDownloadButton (label data file_name mime : string)
| BuildService                      (* credentials loaded, client built *)
| FilesList (folder_id : string) (page_token : option string).

(** What one interaction can see of the process: whether
    [st.cache_resource] already holds the client, and everything shown or
    requested so far (oldest first). *)
Record AppState := {
  service_cached : bool;
  events : list Event;
}.

(** What the script runs against. *)
Record Env := {
  folder_url : string;          (* the text input *)
  secret_present : bool;        (* "gcp_service_account" in st.secrets *)
  drive : Drive;
}.

Inductive Outcome (A : Type) :=
| Done (a : A)      (* returned *)
| Stopped           (* st.stop() *)
| OutOfFuel.        (* the model ran out of steps: the code is still running *)
Arguments Done {A} a.
Arguments Stopped {A}.
Arguments OutOfFuel {A}.

Definition M (A : Type) : Type := AppState -> Outcome A * AppState.

#[global] Instance M_ret : MRet M := fun A a st => (Done a, st).
#[global] Instance M_bind : MBind M := fun A B f m st =>
  match m st with
  | (Done a, st') => f a st'
  | (Stopped, st') => (Stopped, st')
  | (OutOfFuel, st') => (OutOfFuel, st')
  end.

Definition emit (e : Event) : M unit := fun st =>
  (Done tt, {| service_cached := service_cached st; events := events st ++ [e] |}).
Definition st_stop {A} : M A := fun st => (Stopped, st).
Definition out_of_fuel {A} : M A := fun st => (OutOfFuel, st).

(** The value a computation returns, if it returns. *)
Definition result {A} (m : M A) (st : AppState) : Outcome A := fst (m st).
(** The events a computation adds to those of [st]. *)
Definition emitted {A} (m : M A) (st : AppState) : list Event :=
  drop (length (events st)) (events (snd (m st))).

(** Python truthiness of the value of [resp.get("nextPageToken")]. *)
Definition truthy (tok : option string) : bool :=
  match tok with
  | None => false
  | Some EmptyString => false
  | Some _ => true
  end.

(** ** get_drive_service *)

Definition get_drive_service (env : Env) : M Drive := fun st =>
  if service_cached st then (Done (drive env), st)
  else if negb (secret_present env) then
    (_ ← emit (StError "Missing Streamlit secret: gcp_service_account");
     st_stop) st
  else
    (Done (drive env),
     {| service_cached := true; events := events st ++ [BuildService] |}).

(** ** list_children *)

(** [service.files().list(...).execute()] *)
Definition files_list (service : Drive) (folder_id : string)
    (page_token : option string) : M Response :=
  _ ← emit (FilesList folder_id page_token);
  mret (service folder_id page_token).

(** The [while True] loop; [fuel] bounds the number of requests. *)
Fixpoint list_children_loop (fuel : nat) (service : Drive) (folder_id : string)
    (all_items : list DriveItem) (page_token : option string)
    : M (list DriveItem) :=
  match fuel with
  | 0 => out_of_fuel
  | S fuel' =>
      resp ← files_list service folder_id page_token;
      let all_items := all_items ++ default [] (files resp) in
      let page_token := nextPageToken resp in
      if negb (truthy page_token) then mret all_items
      else list_children_loop fuel' service folder_id all_items page_token
  end.

Definition list_children (fuel : nat) (service : Drive) (folder_id : string)
    : M (list DriveItem) :=
  list_children_loop fuel service folder_id [] None.

(** ** scan_folder_recursive *)

(** A CSV row: the list of its seven fields. *)
Abbreviation Row := (list string).

Definition FOLDER_MIME : string := "application/vnd.google-apps.folder".

Definition share_link (file_id : string) : string :=
  "https://drive.google.com/file/d/" +:+ file_id +:+ "/view?usp=sharing".
Definition direct_link (file_id : string) : string :=
  "https://drive.google.com/uc?id=" +:+ file_id.

(** [f"{path}/{name}" if path else name] *)
Definition new_path (path name : string) : string :=
  match path with
  | EmptyString => name
  | _ => path +:+ "/" +:+ name
  end.

Definition audio_row (item : DriveItem) (path : string) : Row :=
  let name := get_str item "name" in
  let file_id := get_str item "id" in
  let created := get_str item "createdTime" in
  let webview := get_str item "webViewLink" in
  [name; path; webview; share_link file_id; direct_link file_id; created; file_id].

Definition is_folder (item : DriveItem) : bool :=
  String.eqb (get_str item "mimeType") FOLDER_MIME.

(** The [for item in items] loop; [recur] is the recursive call. *)
Fixpoint scan_items (recur : string -> string -> M (list Row)) (path : string)
    (items : list DriveItem) (results : list Row) : M (list Row) :=
  match items with
  | [] => mret results
  | item :: items' =>
      let name := get_str item "name" in
      let file_id := get_str item "id" in
      if is_folder item then
        sub ← recur file_id (new_path path name);
        scan_items recur path items' (results ++ sub)
      else if is_audio_file name then
        scan_items recur path items' (results ++ [audio_row item path])
      else
        scan_items recur path items' results
  end.

(** [fuel] bounds the recursion depth and the requests of each listing. *)
Fixpoint scan_folder_recursive (fuel : nat) (service : Drive)
    (folder_id path : string) : M (list Row) :=
  match fuel with
  | 0 => out_of_fuel
  | S fuel' =>
      items ← list_children fuel service folder_id;
      scan_items (scan_folder_recursive fuel' service) path items []
  end.

(** ** CSV

    [csv.writer] and [csv.reader] of the Python standard library with the
    default dialect: comma delimiter, double quote as the quote character,
    doubled to escape it,
    minimal quoting, line terminator CR LF, not strict. *)

Module Csv.

Definition DQUOTE : ascii := "034".
Definition COMMA : ascii := ",".
Definition CR : ascii := "013".
Definition LF : ascii := "010".
Definition CRLF : string := String CR (String LF EmptyString).

(** *** Writer *)

(** The characters that force a field into quotes. *)
Definition special (c : ascii) : bool :=
  Ascii.eqb c COMMA || Ascii.eqb c DQUOTE || Ascii.eqb c CR || Ascii.eqb c LF.

Fixpoint has_special (s : string) : bool :=
  match s with
  | EmptyString => false
  | String c s' => special c || has_special s'
  end.

(** Every quote character is written twice. *)
Fixpoint double_quotes (s : string) : string :=
  match s with
  | EmptyString => EmptyString
  | String c s' =>
      if Ascii.eqb c DQUOTE then String DQUOTE (String DQUOTE (double_quotes s'))
      else String c (double_quotes s')
  end.

Definition write_field (f : string) : string :=
  if has_special f then String DQUOTE (double_quotes f +:+ String DQUOTE EmptyString)
  else f.

(** [writer.writerow(fields)]: the text appended to the buffer.  A
    record that would be empty although it has a field (one empty
    field) is written as an empty quoted field. *)
Definition writerow (fields : list string) : string :=
  let rec := Str.join (String COMMA EmptyString) (map write_field fields) in
  let rec :=
    match fields, rec with
    | _ :: _, EmptyString => String DQUOTE (String DQUOTE EmptyString)
    | _, _ => rec
    end in
  rec +:+ CRLF.

(** [writer.writerows(rows)] *)
Fixpoint writerows (rows : list (list string)) : string :=
  match rows with
  | [] => EmptyString
  | r :: rows' => writerow r +:+ writerows rows'
  end.

(** *** Reader *)

Inductive ParserState :=
| START_RECORD | START_FIELD | IN_FIELD
| IN_QUOTED_FIELD | QUOTE_IN_QUOTED_FIELD | EAT_CRNL.

Record Reader := {
  state : ParserState;
  fields : list string;     (* the fields of the record being read *)
  field : string;           (* the field being read *)
}.

Definition parse_reset : Reader :=
  {| state := START_RECORD; fields := []; field := EmptyString |}.

Definition set_state (st : ParserState) (r : Reader) : Reader :=
  {| state := st; fields := fields r; field := field r |}.

Definition parse_save_field (r : Reader) : Reader :=
  {| state := state r; fields := fields r ++ [field r]; field := EmptyString |}.

Definition parse_add_char (c : ascii) (r : Reader) : Reader :=
  {| state := state r; fields := fields r;
     field := field r +:+ String c EmptyString |}.

(** The input of the state machine: a character, or the end of a line. *)
Inductive Input := Char (c : ascii) | EOL.

Definition is_newline (i : Input) : bool :=
  match i with
  | Char c => Ascii.eqb c LF || Ascii.eqb c CR
  | EOL => false
  end.

Definition in_start_field (r : Reader) (i : Input) : Reader :=
  match i with
  | EOL => set_state START_RECORD (parse_save_field r)
  | Char c =>
      if is_newline i then set_state EAT_CRNL (parse_save_field r)
      else if Ascii.eqb c DQUOTE then set_state IN_QUOTED_FIELD r
      else if Ascii.eqb c COMMA then parse_save_field r
      else set_state IN_FIELD (parse_add_char c r)
  end.

(** [parse_process_char]; [None] is [csv.Error]. *)
Definition parse_process_char (r : Reader) (i : Input) : option Reader :=
  match state r with
  | START_RECORD =>
      match i with
      | EOL => Some r
      | Char _ =>
          if is_newline i then Some (set_state EAT_CRNL r)
          else Some (in_start_field (set_state START_FIELD r) i)
      end
  | START_FIELD => Some (in_start_field r i)
  | IN_FIELD =>
      match i with
      | EOL => Some (set_state START_RECORD (parse_save_field r))
      | Char c =>
          if is_newline i then Some (set_state EAT_CRNL (parse_save_field r))
          else if Ascii.eqb c COMMA then
            Some (set_state START_FIELD (parse_save_field r))
          else Some (parse_add_char c r)
      end
  | IN_QUOTED_FIELD =>
      match i with
      | EOL => Some r
      | Char c =>
          if Ascii.eqb c DQUOTE then Some (set_state QUOTE_IN_QUOTED_FIELD r)
          else Some (parse_add_char c r)
      end
  | QUOTE_IN_QUOTED_FIELD =>
      match i with
      | EOL => Some (set_state START_RECORD (parse_save_field r))
      | Char c =>
          if Ascii.eqb c DQUOTE then
            Some (set_state IN_QUOTED_FIELD (parse_add_char c r))
          else if Ascii.eqb c COMMA then
            Some (set_state START_FIELD (parse_save_field r))
          else if is_newline i then
            Some (set_state EAT_CRNL (parse_save_field r))
          else Some (set_state IN_FIELD (parse_add_char c r))
      end
  | EAT_CRNL =>
      match i with
      | EOL => Some (set_state START_RECORD r)
      | Char _ => if is_newline i then Some r else None
      end
  end.

(** The characters of one line, then the end of the line. *)
Fixpoint parse_line (r : Reader) (line : string) : option Reader :=
  match line with
  | EmptyString => parse_process_char r EOL
  | String c line' =>
      match parse_process_char r (Char c) with
      | Some r' => parse_line r' line'
      | None => None
      end
  end.

Definition state_eqb (a b : ParserState) : bool :=
  match a, b with
  | START_RECORD, START_RECORD | START_FIELD, START_FIELD
  | IN_FIELD, IN_FIELD | IN_QUOTED_FIELD, IN_QUOTED_FIELD
  | QUOTE_IN_QUOTED_FIELD, QUOTE_IN_QUOTED_FIELD | EAT_CRNL, EAT_CRNL => true
  | _, _ => false
  end.

(** The reader's iteration: a record is complete when a line ends in
    state [START_RECORD]; when the lines run out inside a record, what
    was read so far is that record. *)
Fixpoint read_records (r : Reader) (lines : list string)
    : option (list (list string)) :=
  match lines with
  | [] =>
      if negb (String.eqb (field r) EmptyString)
         || state_eqb (state r) IN_QUOTED_FIELD
      then Some [fields (parse_save_field r)]
      else Some []
  | line :: lines' =>
      match parse_line r line with
      | None => None
      | Some r' =>
          if state_eqb (state r') START_RECORD then
            match read_records parse_reset lines' with
            | Some recs => Some (fields r' :: recs)
            | None => None
            end
          else read_records r' lines'
      end
  end.

(** The lines of a text buffer as iteration over [StringIO] yields
    them: each line keeps its line feed. [cur] is the line so far. *)
Fixpoint lines_from (cur : string) (s : string) : list string :=
  match s with
  | EmptyString =>
      match cur with EmptyString => [] | _ => [cur] end
  | String c s' =>
      let cur := cur +:+ String c EmptyString in
      if Ascii.eqb c LF then cur :: lines_from EmptyString s'
      else lines_from cur s'
  end.

Definition lines (s : string) : list string := lines_from EmptyString s.

(** [list(csv.reader(StringIO(text)))] *)
Definition reader (text : string) : option (list (list string)) :=
  read_records parse_reset (lines text).

End Csv.

(** ** run_extraction *)

Definition CSV_HEADER : list string :=
  ["File Name"; "Folder Path"; "View Link"; "Share Link";
   "Direct Download Link"; "Uploaded Date"; "File ID"].

(** The contents of [csv_buffer] after the header and the rows. *)
Definition csv_of (results : list Row) : string :=
  Csv.writerow CSV_HEADER +:+ Csv.writerows results.

Definition run_extraction (fuel : nat) (env : Env) : M unit :=
  match extract_folder_id (folder_url env) with
  | None | Some EmptyString => emit (StError "Invalid folder URL / ID")
  | Some folder_id =>
      service ← get_drive_service env;
      _ ← emit (StSpinner "Scanning Drive folder recursively...");
      results ← scan_folder_recursive fuel service folder_id EmptyString;
      _ ← emit (StSuccess ("Done. Found " +:+ Str.of_nat (length results)
                           +:+ " audio files."));
      match results with
      | [] => emit (StWarning
          "No audio files found, or the folder isn't shared with the service account.")
      | _ :: _ =>
          emit (StDownloadButton "Download CSV" (csv_of results)
                  "audio_links.csv" "text/csv")
      end
  end.

(** ** Vocabulary of the statements *)

(** *** Folder trees *)

(** A folder hierarchy given by the children of each folder; every
    listing fits one page. *)
Definition tree_service (fs : gmap string (list DriveItem)) : Drive :=
  fun folder_id _ => {| files := fs !! folder_id; nextPageToken := None |}.

Definition children (fs : gmap string (list DriveItem)) (folder_id : string)
    : list DriveItem :=
  default [] (fs !! folder_id).

(** No folder lies below itself: the folders can be ranked so that every
    subfolder ranks below the folder that lists it. *)
Definition acyclic (fs : gmap string (list DriveItem)) : Prop :=
  exists rank : string -> nat,
    forall folder_id items item,
      fs !! folder_id = Some items -> In item items -> is_folder item = true ->
      rank (get_str item "id") < rank folder_id.

(** What lies below a folder, as a finite tree. *)
#[warnings="-register-all"]
Inductive Entry :=
| File (item : DriveItem)
| Folder (item : DriveItem) (sub : list Entry).

Inductive unfolds (fs : gmap string (list DriveItem))
    : string -> list Entry -> Prop :=
| unfolds_folder folder_id es :
    unfolds_items fs (children fs folder_id) es ->
    unfolds fs folder_id es
with unfolds_items (fs : gmap string (list DriveItem))
    : list DriveItem -> list Entry -> Prop :=
| unfolds_nil : unfolds_items fs [] []
| unfolds_file item items es :
    is_folder item = false ->
    unfolds_items fs items es ->
    unfolds_items fs (item :: items) (File item :: es)
| unfolds_sub item items sub es :
    is_folder item = true ->
    unfolds fs (get_str item "id") sub ->
    unfolds_items fs items es ->
    unfolds_items fs (item :: items) (Folder item sub :: es).

Scheme unfolds_mind := Minimality for unfolds Sort Prop
  with unfolds_items_mind := Minimality for unfolds_items Sort Prop.

Fixpoint depth (e : Entry) : nat :=
  match e with
  | File _ => 0
  | Folder _ sub => S (list_max (map depth sub))
  end.

(** The rows of the audio files of a tree, depth first and in listing
    order; [names] are the names of the folders entered so far and
    [path_of] turns them into the Folder Path field. *)
Fixpoint rows_of (path_of : list string -> string) (names : list string)
    (e : Entry) : list Row :=
  match e with
  | File item =>
      if is_audio_file (get_str item "name")
      then [audio_row item (path_of names)] else []
  | Folder item sub =>
      flat_map (rows_of path_of (names ++ [get_str item "name"])) sub
  end.

(** The folder names joined by slashes. *)
Definition slash_join (names : list string) : string := Str.join "/" names.

Fixpoint drop_empty (names : list string) : list string :=
  match names with
  | EmptyString :: names' => drop_empty names'
  | _ => names
  end.

(** The folder names joined by slashes, after the empty names at the
    front are left out. *)
Definition folder_path (names : list string) : string :=
  Str.join "/" (drop_empty names).

(** *** Folder references *)

Definition is_id_char (c : ascii) : bool := Re.in_class ID_CLASS c.

(** Every character is a letter, a digit, an underscore or a hyphen. *)
Fixpoint id_string (s : string) : bool :=
  match s with
  | EmptyString => true
  | String c s' => is_id_char c && id_string s'
  end.

Definition starts_with_id_char (s : string) : bool :=
  match s with
  | String c _ => is_id_char c
  | EmptyString => false
  end.

(** At offset [i], [url] holds the literal [lit] and then [id], the
    longest run of identifier characters there, which is not empty. *)
Definition captures_at (lit url : string) (i : nat) (id : string) : Prop :=
  exists pre post,
    url = pre +:+ lit +:+ id +:+ post /\ String.length pre = i /\
    id <> EmptyString /\ id_string id = true /\ starts_with_id_char post = false.

(** [id] is what follows the leftmost occurrence of [lit] that an
    identifier follows. *)
Definition leftmost_capture (lit url id : string) : Prop :=
  exists i, captures_at lit url i id /\
            forall j id', j < i -> ~ captures_at lit url j id'.

Definition no_capture (lit url : string) : Prop :=
  forall i id, ~ captures_at lit url i id.

(** The whole of [url], up to one final line feed, is the identifier
    [id] of 25 characters or more. *)
Definition bare_id (url id : string) : Prop :=
  (url = id \/ url = id +:+ String "010" EmptyString) /\
  id_string id = true /\ 25 <= String.length id.

(** A pattern made of a literal and then the group [([a-zA-Z0-9_-]+)]. *)
Definition lit_then_id (L : string) : Re.regex :=
  Re.lit L (Re.Grp (Re.Cls ID_CLASS 1)).

(** The extractor without the second pattern. *)
Definition extract_folder_id_3 (url : string) : option string :=
  extract_with [PAT_FOLDERS; PAT_ID_PARAM; PAT_BARE_ID] url.

(** *** Paginated listings *)

Definition add_events (st : AppState) (evs : list Event) : AppState :=
  {| service_cached := service_cached st; events := events st ++ evs |}.

(** The items of a page: [resp.get("files", [])]. *)
Definition page_items (r : Response) : list DriveItem := default [] (files r).

(** The items of all pages, page after page. *)
Definition merged (rs : list Response) : list DriveItem :=
  concat (map page_items rs).

(** The pages of a listing from the page at [tok] on, each linked to the
    next by its continuation token, up to the page that has none. *)
Inductive page_chain (pages : option string -> Response)
    : option string -> list Response -> Prop :=
| chain_last tok :
    nextPageToken (pages tok) = None ->
    page_chain pages tok [pages tok]
| chain_next tok t rs :
    nextPageToken (pages tok) = Some t ->
    page_chain pages (Some t) rs ->
    page_chain pages tok (pages tok :: rs).

(** The same, up to the page whose token is missing or empty. *)
Inductive page_walk (pages : option string -> Response)
    : option string -> list Response -> Prop :=
| walk_last tok :
    truthy (nextPageToken (pages tok)) = false ->
    page_walk pages tok [pages tok]
| walk_next tok rs :
    truthy (nextPageToken (pages tok)) = true ->
    page_walk pages (nextPageToken (pages tok)) rs ->
    page_walk pages tok (pages tok :: rs).

(** The requests that fetch the pages [rs], the first one at [tok]. *)
Fixpoint requests (folder_id : string) (tok : option string)
    (rs : list Response) : list Event :=
  match rs with
  | [] => []
  | r :: rs' => FilesList folder_id tok :: requests folder_id (nextPageToken r) rs'
  end.

(** *** Sample data *)

Definition mk_item (id name mime : string) : DriveItem :=
  <["id" := id]> (<["name" := name]> (<["mimeType" := mime]> ∅)).

Definition mk_file (id name : string) : DriveItem := mk_item id name "audio/mpeg".
Definition mk_folder (id name : string) : DriveItem := mk_item id name FOLDER_MIME.

Definition st0 : AppState := {| service_cached := false; events := [] |}.

(** A listing in three pages. *)
Definition three_pages : Drive := fun _ tok =>
  match tok with
  | None =>
      {| files := Some [mk_file "1" "a.mp3"]; nextPageToken := Some "t1" |}
  | Some "t1" =>
      {| files := Some [mk_file "2" "b.txt"; mk_file "3" "c.wav"];
         nextPageToken := Some "t2" |}
  | Some _ =>
      {| files := Some [mk_file "4" "d.ogg"]; nextPageToken := None |}
  end.

(** A first page whose continuation token is the empty string. *)
Definition empty_token_pages : Drive := fun _ tok =>
  match tok with
  | None =>
      {| files := Some [mk_file "1" "a.mp3"]; nextPageToken := Some EmptyString |}
  | Some _ =>
      {| files := Some [mk_file "2" "b.mp3"]; nextPageToken := None |}
  end.

(** Three levels: the folder in the root has an empty name. *)
Definition nameless_tree : gmap string (list DriveItem) :=
  insert "root" [mk_folder "f1" EmptyString]
  (insert "f1" [mk_folder "f2" "a"]
  (insert "f2" [mk_file "x" "x.mp3"] ∅)).

Definition nameless_rank (folder_id : string) : nat :=
  if String.eqb folder_id "root" then 3
  else if String.eqb folder_id "f1" then 2
  else if String.eqb folder_id "f2" then 1 else 0.

Definition nameless_entries : list Entry :=
  [Folder (mk_folder "f1" EmptyString)
     [Folder (mk_folder "f2" "a") [File (mk_file "x" "x.mp3")]]].

(** Three levels with audio and other files interleaved. *)
Definition sample_tree : gmap string (list DriveItem) :=
  insert "root" [mk_file "1" "intro.mp3"; mk_folder "A" "Albums";
                 mk_file "2" "notes.txt"]
  (insert "A" [mk_file "3" "Song.MP3"; mk_folder "B" "Live";
               mk_file "4" "cover.jpg"]
  (insert "B" [mk_file "5" "set.flac"; mk_file "6" "readme.md"] ∅)).

Definition sample_rank (folder_id : string) : nat :=
  if String.eqb folder_id "root" then 3
  else if String.eqb folder_id "A" then 2
  else if String.eqb folder_id "B" then 1 else 0.

Definition sample_entries : list Entry :=
  [File (mk_file "1" "intro.mp3");
   Folder (mk_folder "A" "Albums")
     [File (mk_file "3" "Song.MP3");
      Folder (mk_folder "B" "Live")
        [File (mk_file "5" "set.flac"); File (mk_file "6" "readme.md")];
      File (mk_file "4" "cover.jpg")];
   File (mk_file "2" "notes.txt")].

(** *** Events *)

Definition is_request (e : Event) : bool :=
  match e with FilesList _ _ => true | _ => false end.

Definition is_download (e : Event) : bool :=
  match e with StDownloadButton _ _ _ _ => true | _ => false end.

(** [st'] comes after [st] with only requests to Drive in between. *)
Definition requests_only (st st' : AppState) : Prop :=
  service_cached st' = service_cached st /\
  exists evs, events st' = events st ++ evs /\
              Forall (fun e => is_request e = true) evs.

(** A row made from an item that is not a folder and has an audio name. *)
Definition row_of_audio_item (row : Row) : Prop :=
  exists item path,
    row = audio_row item path /\ is_folder item = false /\
    is_audio_file (get_str item "name") = true.

(** What one item of the root listing adds to the result: [part]. *)
Definition root_item_part (service : Drive) (bound : nat) (item : DriveItem)
    (part : list Row) : Prop :=
  if is_folder item then
    forall fuel st, bound < fuel ->
      result (scan_folder_recursive fuel service (get_str item "id")
                (get_str item "name")) st = Done part
  else if is_audio_file (get_str item "name") then
    part = [[get_str item "name"; EmptyString; get_str item "webViewLink";
             share_link (get_str item "id"); direct_link (get_str item "id");
             get_str item "createdTime"; get_str item "id"]]
  else part = [].

(** What [run_extraction] does once the folder is known. *)
Definition run_scan (fuel : nat) (env : Env) (folder_id : string) : M unit :=
  service ← get_drive_service env;
  _ ← emit (StSpinner "Scanning Drive folder recursively...");
  results ← scan_folder_recursive fuel service folder_id EmptyString;
  _ ← emit (StSuccess ("Done. Found " +:+ Str.of_nat (length results)
                       +:+ " audio files."));
  match results with
  | [] => emit (StWarning
      "No audio files found, or the folder isn't shared with the service account.")
  | _ :: _ =>
      emit (StDownloadButton "Download CSV" (csv_of results)
              "audio_links.csv" "text/csv")
  end.

(** A text that is no folder reference, and an empty folder. *)
Definition env_invalid : Env :=
  {| folder_url := "not a folder link"; secret_present := true;
     drive := tree_service sample_tree |}.

Definition env_empty_folder : Env :=
  {| folder_url := "https://drive.google.com/drive/folders/1AbC";
     secret_present := true; drive := tree_service ∅ |}.

(** *** Reading a text character by character

    The reader of [Csv] takes its input line by line.  [read_text] is
    the same reader run over the text itself: it ends the line after
    each line feed. [line_open] tells whether the current line has
    characters already. *)

(** The characters of a line, without its end. *)
Fixpoint parse_chars (r : Csv.Reader) (s : string) : option Csv.Reader :=
  match s with
  | EmptyString => Some r
  | String c s' =>
      match Csv.parse_process_char r (Csv.Char c) with
      | Some r' => parse_chars r' s'
      | None => None
      end
  end.

(** The end of a line: the record is complete, or the next line goes on. *)
Definition end_line (r : Csv.Reader)
    (continue : Csv.Reader -> option (list (list string)))
    : option (list (list string)) :=
  match Csv.parse_process_char r Csv.EOL with
  | None => None
  | Some r' =>
      if Csv.state_eqb (Csv.state r') Csv.START_RECORD then
        match continue Csv.parse_reset with
        | Some recs => Some (Csv.fields r' :: recs)
        | None => None
        end
      else continue r'
  end.

Fixpoint read_text (r : Csv.Reader) (line_open : bool) (s : string)
    : option (list (list string)) :=
  match s with
  | EmptyString =>
      if line_open then end_line r (fun r' => Csv.read_records r' [])
      else Csv.read_records r []
  | String c s' =>
      match Csv.parse_process_char r (Csv.Char c) with
      | None => None
      | Some r1 =>
          if Ascii.eqb c Csv.LF then end_line r1 (fun r' => read_text r' false s')
          else read_text r1 true s'
      end
  end.

Definition is_empty (s : string) : bool :=
  match s with EmptyString => true | _ => false end.

(** Whether the line is begun after the characters of [f]. *)
Fixpoint open_after (line_open : bool) (f : string) : bool :=
  match f with
  | EmptyString => line_open
  | String c f' => open_after (negb (Ascii.eqb c Csv.LF)) f'
  end.

(** A record read, then the records of what follows. *)
Definition then_records (rec : list string) (more : option (list (list string)))
    : option (list (list string)) :=
  match more with
  | Some recs => Some (rec :: recs)
  | None => None
  end.

(** *** Further vocabulary and sample data *)

(** The listing requests of a scan, depth first: one for the folder and
    one for each folder found below it, none for a file. *)
Fixpoint entry_requests (e : Entry) : list Event :=
  match e with
  | File _ => []
  | Folder item sub =>
      FilesList (get_str item "id") None :: flat_map entry_requests sub
  end.

Definition folder_requests (folder_id : string) (es : list Entry) : list Event :=
  FilesList folder_id None :: flat_map entry_requests es.

(** [p] is [path] or lies below it. *)
Definition under_path (path p : string) : Prop :=
  p = path \/ exists rest, p = path +:+ "/" +:+ rest.

(** The events of getting the client: it is built unless it is cached. *)
Definition build_events (st : AppState) : list Event :=
  if service_cached st then [] else [BuildService].

(** A listing whose every page carries a token. *)
Definition endless_pages : Drive := fun _ _ =>
  {| files := Some [mk_file "1" "a.mp3"]; nextPageToken := Some "next" |}.

(** A folder that lists itself. *)
Definition self_listing_tree : gmap string (list DriveItem) :=
  insert "loop" [mk_file "1" "a.mp3"; mk_folder "loop" "again"] ∅.

Definition env_sample : Env :=
  {| folder_url := "https://drive.google.com/drive/folders/root";
     secret_present := true; drive := tree_service sample_tree |}.

Definition env_no_secret : Env :=
  {| folder_url := "https://drive.google.com/drive/folders/root";
     secret_present := false; drive := tree_service sample_tree |}.

(** A row whose Folder Path is [path] or lies below it. *)
Definition row_under (path : string) (row : Row) : Prop :=
  exists item p, row = audio_row item p /\ under_path path p.

(** The query of a listing request, as [list_children] writes it:
    ['{folder_id}' in parents and trashed=false]. *)
Definition APOSTROPHE : ascii := "039".

Definition list_query (folder_id : string) : string :=
  String APOSTROPHE folder_id +:+ String APOSTROPHE " in parents and trashed=false".

(** How often [c] occurs in [s]. *)
Fixpoint count_char (c : ascii) (s : string) : nat :=
  match s with
  | EmptyString => 0
  | String c' s' => (if Ascii.eqb c' c then 1 else 0) + count_char c s'
  end.

(** [service] presents the hierarchy [fs]: the listing of every folder is
    a chain of at most [n] pages that hold its children in order. *)
Definition presents (service : Drive) (fs : gmap string (list DriveItem))
    (n : nat) : Prop :=
  forall folder_id,
    exists rs, page_walk (service folder_id) None rs /\ length rs <= n /\
               merged rs = children fs folder_id.

(** The sample with the listing of its root cut into two pages. *)
Definition paged_sample : Drive := fun folder_id tok =>
  if String.eqb folder_id "root" then
    match tok with
    | None =>
        {| files := Some [mk_file "1" "intro.mp3"; mk_folder "A" "Albums"];
           nextPageToken := Some "p2" |}
    | Some _ =>
        {| files := Some [mk_file "2" "notes.txt"]; nextPageToken := None |}
    end
  else tree_service sample_tree folder_id tok.

(** The sample with the listing of its root in the opposite order. *)
Definition sample_reordered : gmap string (list DriveItem) :=
  insert "root" [mk_file "2" "notes.txt"; mk_folder "A" "Albums";
                 mk_file "1" "intro.mp3"]
  (insert "A" [mk_file "3" "Song.MP3"; mk_folder "B" "Live";
               mk_file "4" "cover.jpg"]
  (insert "B" [mk_file "5" "set.flac"; mk_file "6" "readme.md"] ∅)).

(* ===================================================================== *)
(** * Part II: theorems *)
(* ===================================================================== *)

(** ** Strings *)

#[local] Arguments String.append !s1 s2 : simpl nomatch.

Lemma append_nil_r (s : string) : s +:+ EmptyString = s.
Proof. induction s; simpl; congruence. Qed.

Lemma append_assoc (a b c : string) : (a +:+ b) +:+ c = a +:+ (b +:+ c).
Proof. induction a; simpl; congruence. Qed.

Lemma length_append (a b : string) :
  String.length (a +:+ b) = String.length a + String.length b.
Proof. induction a; simpl; congruence. Qed.

Lemma drop_append (a b : string) : Str.drop (String.length a) (a +:+ b) = b.
Proof. induction a; simpl; auto. Qed.

Lemma take_append (a b : string) : Str.take (String.length a) (a +:+ b) = a.
Proof. induction a; simpl; [destruct b; reflexivity | congruence]. Qed.

Lemma take_drop (n : nat) (s : string) : Str.take n s +:+ Str.drop n s = s.
Proof.
  revert s; induction n; intros [|c s]; simpl; try reflexivity.
  now rewrite IHn.
Qed.

Lemma endswith_spec (s suf : string) :
  Str.endswith s suf = true <-> exists pre, s = pre +:+ suf.
Proof.
  unfold Str.endswith. rewrite andb_true_iff, Nat.leb_le, String.eqb_eq. split.
  - intros [Hlen Heq].
    exists (Str.take (String.length s - String.length suf) s).
    rewrite <- Heq at 2. symmetry. apply take_drop.
  - intros [pre ->]. rewrite length_append. split; [lia|].
    replace (String.length pre + String.length suf - String.length suf)
      with (String.length pre) by lia.
    apply drop_append.
Qed.

(** ** is_audio_file *)

Lemma is_audio_file_in_spec (exts : list string) (name : string) :
  is_audio_file_in exts name = true <->
  exists ext, In ext exts /\ exists pre, Str.lower name = pre +:+ ext.
Proof.
  unfold is_audio_file_in. rewrite existsb_exists.
  split; intros (ext & Hin & H); exists ext; split; auto;
    now apply endswith_spec.
Qed.

(** The iteration order of the extension set does not matter. *)
Lemma is_audio_file_order_irrelevant (exts exts' : list string) (name : string) :
  (forall ext, In ext exts <-> In ext exts') ->
  is_audio_file_in exts name = is_audio_file_in exts' name.
Proof.
  intros Hperm. apply eq_true_iff_eq. rewrite !is_audio_file_in_spec.
  split; intros (ext & Hin & H); exists ext; split; auto; now apply Hperm.
Qed.

(** C4. For every file name, [is_audio_file] answers true exactly when the
    lowercased name ends with one of the eight extensions of the allow-list
    (.mp3, .wav, .m4a, .aac, .flac, .ogg, .opus, .wma); "Song.MP3" is
    audio and "notes.txt" is not. *)
Theorem is_audio_file_iff_allowed_suffix :
  AUDIO_EXTENSIONS =
    [".mp3"; ".wav"; ".m4a"; ".aac"; ".flac"; ".ogg"; ".opus"; ".wma"] /\
  length AUDIO_EXTENSIONS = 8 /\
  (forall name : string,
     is_audio_file name = true <->
     exists ext, In ext AUDIO_EXTENSIONS /\
                 exists pre, Str.lower name = pre +:+ ext) /\
  is_audio_file "Song.MP3" = true /\
  is_audio_file "notes.txt" = false.
Proof.
  repeat split; try reflexivity; apply is_audio_file_in_spec.
Qed.

(** ** Regular expressions *)

#[local] Arguments Re.in_class : simpl never.

Lemma append_cons (c : ascii) (a b : string) :
  String c a +:+ b = String c (a +:+ b).
Proof. reflexivity. Qed.

(** Every string splits into its longest run of identifier characters
    and the rest. *)
Lemma id_run_split (s : string) :
  exists id post, s = id +:+ post /\ id_string id = true /\
                  starts_with_id_char post = false.
Proof.
  induction s as [|c s (id & post & -> & Hid & Hpost)].
  - exists EmptyString, EmptyString. auto.
  - destruct (is_id_char c) eqn:Hc.
    + exists (String c id), post. simpl. rewrite Hc, Hid. auto.
    + exists EmptyString, (String c (id +:+ post)). simpl. auto.
Qed.

Section Rep.
Variables (g : option string) (k : Re.Cont).

(** The greedy repetition first offers the longest run to what follows. *)
Lemma rep_longest (id post : string) (min : nat) (bol : bool) (m : Re.Match) :
  id_string id = true -> starts_with_id_char post = false ->
  min <= String.length id ->
  (forall b, k b post g = Some m) ->
  Re.rep ID_CLASS min bol (id +:+ post) g k = Some m.
Proof.
  revert min bol. induction id as [|c id IH]; simpl; intros min bol Hid Hpost Hmin Hk.
  - assert (min = 0) as -> by lia. destruct post as [|c post]; simpl.
    + apply Hk.
    + simpl in Hpost. unfold is_id_char in Hpost. rewrite Hpost. apply Hk.
  - apply andb_true_iff in Hid as [Hc Hid]. unfold is_id_char in Hc. rewrite Hc.
    rewrite IH; auto. lia.
Qed.

(** It fails when what follows fails after every admissible length. *)
Lemma rep_none (id post : string) (min : nat) (bol : bool) :
  id_string id = true -> starts_with_id_char post = false ->
  (forall j b, min <= j <= String.length id ->
               k b (Str.drop j (id +:+ post)) g = None) ->
  Re.rep ID_CLASS min bol (id +:+ post) g k = None.
Proof.
  revert min bol. induction id as [|c id IH]; simpl; intros min bol Hid Hpost Hk.
  - assert (Hstop : (if Nat.eqb min 0 then k bol post g else None) = None).
    { destruct min; simpl; auto. apply (Hk 0). simpl. lia. }
    destruct post as [|c post]; simpl; auto.
    simpl in Hpost. unfold is_id_char in Hpost. now rewrite Hpost.
  - apply andb_true_iff in Hid as [Hc Hid]. unfold is_id_char in Hc. rewrite Hc.
    rewrite IH; auto.
    + destruct min; simpl; auto. apply (Hk 0). simpl. lia.
    + intros j b Hj. apply (Hk (S j) b). simpl. lia.
Qed.
End Rep.

Lemma rmatch_lit (L : string) (rest : Re.regex) (bol : bool) (s : string)
    (g : option string) (k : Re.Cont) :
  Re.rmatch (Re.lit L rest) bol (L +:+ s) g k =
  Re.rmatch rest (match L with EmptyString => bol | _ => false end) s g k.
Proof.
  revert bol. induction L as [|c L IH]; intros bol; simpl; auto.
  rewrite Ascii.eqb_refl, IH. now destruct L.
Qed.

Lemma rmatch_lit_inv (L : string) (rest : Re.regex) (bol : bool) (s : string)
    (g : option string) (k : Re.Cont) (m : Re.Match) :
  Re.rmatch (Re.lit L rest) bol s g k = Some m -> exists s', s = L +:+ s'.
Proof.
  revert bol s. induction L as [|c L IH]; intros bol s; simpl.
  - exists s. reflexivity.
  - destruct s as [|c' s]; [discriminate|].
    destruct (Ascii.eqb_spec c' c) as [->|]; [|discriminate].
    intros H. apply IH in H as [s' ->]. now exists s'.
Qed.

Lemma consumed_app (a b : string) : Re.consumed (a +:+ b) b = a.
Proof.
  unfold Re.consumed. rewrite length_append.
  replace (String.length a + String.length b - String.length b)
    with (String.length a) by lia.
  apply take_append.
Qed.

Section LitThenId.
Variable L : string.

Lemma match_here_capture (b : bool) (id post : string) :
  id_string id = true -> starts_with_id_char post = false ->
  Re.match_here (lit_then_id L) b (L +:+ id +:+ post) =
  match id with EmptyString => None | _ => Some (Some id) end.
Proof.
  intros Hid Hpost. unfold Re.match_here, lit_then_id.
  rewrite rmatch_lit. cbn [Re.rmatch].
  destruct id as [|c id].
  - apply (rep_none _ _ EmptyString post); auto.
    simpl. intros j b' Hj. lia.
  - apply rep_longest; auto.
    + simpl. lia.
    + intros b'. now rewrite consumed_app.
Qed.

Lemma match_here_iff (b : bool) (s : string) (m : Re.Match) :
  Re.match_here (lit_then_id L) b s = Some m <->
  exists id post, s = L +:+ id +:+ post /\ id <> EmptyString /\
    id_string id = true /\ starts_with_id_char post = false /\ m = Some id.
Proof.
  split.
  - intros H. destruct (rmatch_lit_inv _ _ _ _ _ _ _ H) as [s' ->].
    destruct (id_run_split s') as (id & post & -> & Hid & Hpost).
    rewrite match_here_capture in H by auto.
    destruct id as [|a id]; [discriminate|]. injection H as <-.
    exists (String a id), post. repeat split; auto.
  - intros (id & post & -> & Hne & Hid & Hpost & ->).
    rewrite match_here_capture by auto. now destruct id.
Qed.

Lemma match_here_bol (b : bool) (s : string) :
  Re.match_here (lit_then_id L) b s = Re.match_here (lit_then_id L) false s.
Proof.
  destruct (Re.match_here (lit_then_id L) b s) as [m|] eqn:H.
  - symmetry. apply match_here_iff. now apply match_here_iff in H.
  - destruct (Re.match_here (lit_then_id L) false s) as [m|] eqn:H'; auto.
    apply match_here_iff in H'. apply (match_here_iff b) in H'. congruence.
Qed.
End LitThenId.

(** [re.search] finds the match at the leftmost start position. *)
Section Search.
Variable r : Re.regex.
Hypothesis bol_irrelevant :
  forall b s, Re.match_here r b s = Re.match_here r false s.

Lemma search_from_Some (s : string) (b : bool) (m : Re.Match) :
  Re.search_from r b s = Some m <->
  exists pre rest, s = pre +:+ rest /\
    Re.match_here r false rest = Some m /\
    forall pre' rest', s = pre' +:+ rest' ->
      String.length pre' < String.length pre ->
      Re.match_here r false rest' = None.
Proof.
  revert b. induction s as [|c s IH]; intros b; simpl; rewrite bol_irrelevant.
  - split.
    + intros H. exists EmptyString, EmptyString. repeat split; auto.
      * now destruct (Re.match_here r false EmptyString).
      * simpl. intros; lia.
    + intros (pre & rest & Heq & Hm & _).
      destruct pre; [|discriminate]. simpl in Heq. subst rest. now rewrite Hm.
  - destruct (Re.match_here r false (String c s)) as [m0|] eqn:Hm0.
    + split.
      * intros [= <-]. exists EmptyString, (String c s). repeat split; auto.
        simpl. intros; lia.
      * intros (pre & rest & Heq & Hm & Hmin).
        destruct pre as [|c' pre].
        -- simpl in Heq. subst rest. congruence.
        -- rewrite (Hmin EmptyString (String c s)) in Hm0; [discriminate|auto|simpl; lia].
    + rewrite IH. split.
      * intros (pre & rest & -> & Hm & Hmin).
        exists (String c pre), rest. repeat split; auto.
        intros [|c' pre'] rest'; simpl; intros Heq Hlen.
        -- now subst rest'.
        -- injection Heq as <- Heq. apply (Hmin pre'); auto. lia.
      * intros (pre & rest & Heq & Hm & Hmin).
        destruct pre as [|c' pre].
        -- simpl in Heq. subst rest. congruence.
        -- simpl in Heq. injection Heq as <- ->.
           exists pre, rest. repeat split; auto.
           intros pre' rest' Heq Hlen.
           apply (Hmin (String c pre')); simpl; [now rewrite Heq | lia].
Qed.

Lemma search_from_None (s : string) (b : bool) :
  Re.search_from r b s = None <->
  forall pre rest, s = pre +:+ rest -> Re.match_here r false rest = None.
Proof.
  revert b. induction s as [|c s IH]; intros b; simpl; rewrite bol_irrelevant.
  - split.
    + intros H [|c pre] rest; [|discriminate]. simpl. intros <-.
      now destruct (Re.match_here r false EmptyString).
    + intros H. now rewrite (H EmptyString EmptyString).
  - destruct (Re.match_here r false (String c s)) as [m0|] eqn:Hm0.
    + split; [discriminate|]. intros H.
      rewrite (H EmptyString (String c s)) in Hm0; [discriminate|auto].
    + rewrite IH. split.
      * intros H [|c' pre] rest; simpl; intros Heq.
        -- now subst rest.
        -- injection Heq as <- ->. now apply (H pre).
      * intros H pre rest ->. now apply (H (String c pre)).
Qed.
End Search.

Section SearchLit.
Variable L : string.

Lemma search_lit_Some (url : string) (m : Re.Match) :
  Re.search (lit_then_id L) url = Some m <->
  exists id, m = Some id /\ leftmost_capture L url id.
Proof.
  unfold Re.search.
  rewrite (search_from_Some _ (match_here_bol L)). split.
  - intros (pre & rest & -> & Hm & Hmin).
    apply (match_here_iff L) in Hm
      as (id & post & -> & Hne & Hid & Hpost & ->).
    exists id. split; auto. exists (String.length pre). split.
    + exists pre, post. auto.
    + intros j id' Hj (pre' & post' & Heq & Hlen & Hne' & Hid' & Hpost').
      specialize (Hmin pre' _ Heq ltac:(lia)).
      rewrite (match_here_capture L) in Hmin by auto.
      now destruct id'.
  - intros (id & -> & i & (pre & post & -> & Hlen & Hne & Hid & Hpost) & Hmin).
    exists pre, (L +:+ id +:+ post). repeat split; auto.
    + rewrite (match_here_capture L) by auto. now destruct id.
    + intros pre' rest' Heq Hlt.
      destruct (Re.match_here (lit_then_id L) false rest') as [m'|] eqn:Hm'; auto.
      apply (match_here_iff L) in Hm'
        as (id' & post' & -> & Hne' & Hid' & Hpost' & ->).
      exfalso. apply (Hmin (String.length pre') id'); [lia|].
      exists pre', post'. auto.
Qed.

Lemma search_lit_None (url : string) :
  Re.search (lit_then_id L) url = None <-> no_capture L url.
Proof.
  unfold Re.search.
  rewrite (search_from_None _ (match_here_bol L)). split.
  - intros H i id (pre & post & Heq & Hlen & Hne & Hid & Hpost).
    specialize (H pre _ Heq).
    rewrite (match_here_capture L) in H by auto.
    now destruct id.
  - intros H pre rest ->.
    destruct (Re.match_here (lit_then_id L) false rest) as [m'|] eqn:Hm'; auto.
    apply (match_here_iff L) in Hm'
      as (id' & post' & -> & Hne' & Hid' & Hpost' & ->).
    exfalso. apply (H (String.length pre) id'). exists pre, post'. auto.
Qed.
End SearchLit.

(** The anchored pattern [^([a-zA-Z0-9_-]{25,})$]. *)

Lemma at_eol_spec (s : string) :
  Re.at_eol s = true <-> s = EmptyString \/ s = String "010" EmptyString.
Proof.
  destruct s as [|c [|c' s]]; simpl.
  - intuition.
  - rewrite Ascii.eqb_eq. split; [intros ->; auto | intros [H|H]; congruence].
  - split; [discriminate | intros [H|H]; discriminate].
Qed.

Lemma at_eol_after_id_char (c : ascii) (s : string) :
  is_id_char c = true -> Re.at_eol (String c s) = false.
Proof.
  intros Hc. destruct s; simpl; auto.
  destruct (Ascii.eqb_spec c "010") as [->|];
    [exfalso; vm_compute in Hc; discriminate | reflexivity].
Qed.

Lemma drop_app_lt (j : nat) (id post : string) :
  id_string id = true -> j < String.length id ->
  exists c s, Str.drop j (id +:+ post) = String c s /\ is_id_char c = true.
Proof.
  revert j. induction id as [|c id IH]; simpl; intros j Hid Hj; [lia|].
  apply andb_true_iff in Hid as [Hc Hid]. destruct j; simpl.
  - eauto.
  - apply IH; auto. lia.
Qed.

Lemma match_here_bare (id post : string) :
  id_string id = true -> starts_with_id_char post = false ->
  Re.match_here PAT_BARE_ID true (id +:+ post) =
  if Nat.leb 25 (String.length id) && Re.at_eol post
  then Some (Some id) else None.
Proof.
  intros Hid Hpost. unfold Re.match_here, PAT_BARE_ID. cbn [Re.rmatch].
  destruct (Nat.leb_spec 25 (String.length id)) as [Hlen|Hlen];
    [destruct (Re.at_eol post) eqn:Heol|]; simpl.
  - apply rep_longest; auto. intros b. cbn [Re.rmatch]. rewrite Heol.
    now rewrite consumed_app.
  - apply rep_none; auto. intros j b Hj. cbn [Re.rmatch].
    destruct (Nat.eq_dec j (String.length id)) as [->|Hne].
    + now rewrite drop_append, Heol.
    + destruct (drop_app_lt j id post Hid ltac:(lia)) as (c & s & -> & Hc).
      now rewrite at_eol_after_id_char.
  - apply rep_none; auto. intros j b Hj. lia.
Qed.

Lemma search_bare_nonstart (s : string) :
  Re.search_from PAT_BARE_ID false s = None.
Proof. induction s; simpl; auto. Qed.

Lemma search_bare (url : string) :
  Re.search PAT_BARE_ID url = Re.match_here PAT_BARE_ID true url.
Proof.
  unfold Re.search. destruct url as [|c url]; simpl.
  - reflexivity.
  - destruct (Re.match_here PAT_BARE_ID true (String c url)) eqn:H.
    + reflexivity.
    + apply search_bare_nonstart.
Qed.

Lemma search_bare_Some (url : string) (m : Re.Match) :
  Re.search PAT_BARE_ID url = Some m <-> exists id, m = Some id /\ bare_id url id.
Proof.
  rewrite search_bare. split.
  - destruct (id_run_split url) as (id & post & -> & Hid & Hpost).
    rewrite match_here_bare by auto.
    destruct (Nat.leb_spec 25 (String.length id)) as [Hlen|Hlen]; [|discriminate].
    destruct (Re.at_eol post) eqn:Heol; [|discriminate]. simpl.
    intros [= <-]. exists id. split; auto. repeat split; auto.
    apply at_eol_spec in Heol as [-> | ->]; [left; apply append_nil_r | now right].
  - intros (id & -> & [-> | ->] & Hid & Hlen).
    + rewrite <- (append_nil_r id) at 1. rewrite match_here_bare by auto.
      apply Nat.leb_le in Hlen. now rewrite Hlen.
    + rewrite match_here_bare by auto.
      apply Nat.leb_le in Hlen. now rewrite Hlen.
Qed.

Lemma search_bare_None (url : string) :
  Re.search PAT_BARE_ID url = None <-> forall id, ~ bare_id url id.
Proof.
  split.
  - intros H id Hb.
    assert (Re.search PAT_BARE_ID url = Some (Some id)) by (apply search_bare_Some; eauto).
    congruence.
  - intros H. destruct (Re.search PAT_BARE_ID url) as [m|] eqn:Hm; auto.
    apply search_bare_Some in Hm as (id & _ & Hb). now destruct (H id).
Qed.

(** ** extract_folder_id *)

Lemma patterns_shape :
  patterns = [lit_then_id "/folders/"; lit_then_id "/drive/folders/";
              lit_then_id "id="; PAT_BARE_ID].
Proof. reflexivity. Qed.

Lemma search_lit_cases (L url : string) :
  (exists id, Re.search (lit_then_id L) url = Some (Some id) /\
              leftmost_capture L url id) \/
  (Re.search (lit_then_id L) url = None /\ no_capture L url).
Proof.
  destruct (Re.search (lit_then_id L) url) as [m|] eqn:H.
  - left. apply search_lit_Some in H as (id & -> & Hl). eauto.
  - right. split; auto. now apply search_lit_None.
Qed.

Lemma search_bare_cases (url : string) :
  (exists id, Re.search PAT_BARE_ID url = Some (Some id) /\ bare_id url id) \/
  (Re.search PAT_BARE_ID url = None /\ forall id, ~ bare_id url id).
Proof.
  destruct (Re.search PAT_BARE_ID url) as [m|] eqn:H.
  - left. apply search_bare_Some in H as (id & -> & Hl). eauto.
  - right. split; auto. now apply search_bare_None.
Qed.

Lemma leftmost_capture_search (L url id : string) :
  leftmost_capture L url id -> Re.search (lit_then_id L) url = Some (Some id).
Proof. intros H. apply search_lit_Some. eauto. Qed.

Lemma no_capture_search (L url : string) :
  no_capture L url -> Re.search (lit_then_id L) url = None.
Proof. apply search_lit_None. Qed.

Lemma bare_id_search (url id : string) :
  bare_id url id -> Re.search PAT_BARE_ID url = Some (Some id).
Proof. intros H. apply search_bare_Some. eauto. Qed.

(** A match of the second pattern holds a match of the first one, with
    the same group, six characters further. *)
Lemma drive_folders_capture_is_folders_capture (url : string) (i : nat) (id : string) :
  captures_at "/drive/folders/" url i id -> captures_at "/folders/" url (i + 6) id.
Proof.
  intros (pre & post & -> & <- & Hne & Hid & Hpost).
  exists (pre +:+ "/drive"), post. repeat split; auto.
  - now rewrite !append_assoc.
  - rewrite length_append. reflexivity.
Qed.

Ltac search_facts :=
  repeat match goal with
  | H : leftmost_capture _ _ _ |- _ => apply leftmost_capture_search in H
  | H : no_capture _ _ |- _ => apply no_capture_search in H
  | H : bare_id _ _ |- _ => apply bare_id_search in H
  end.

(** C3. [extract_folder_id] tries the four patterns in their order
    (/folders/ID, /drive/folders/ID, id=ID, a bare ID of 25 characters or
    more) and returns the group of the first one found anywhere in the
    string, and [None] when none is found; what each pattern finds is the
    identifier after the leftmost occurrence of its literal (for the
    anchored pattern, the whole string). *)
Theorem extract_folder_id_first_match (url : string) :
  (forall id,
     extract_folder_id url = Some id <->
       leftmost_capture "/folders/" url id
     \/ (no_capture "/folders/" url /\
         leftmost_capture "/drive/folders/" url id)
     \/ (no_capture "/folders/" url /\ no_capture "/drive/folders/" url /\
         leftmost_capture "id=" url id)
     \/ (no_capture "/folders/" url /\ no_capture "/drive/folders/" url /\
         no_capture "id=" url /\ bare_id url id)) /\
  (extract_folder_id url = None <->
     no_capture "/folders/" url /\ no_capture "/drive/folders/" url /\
     no_capture "id=" url /\ forall id, ~ bare_id url id) /\
  (forall m, Re.search PAT_FOLDERS url = Some m <->
     exists id, m = Some id /\ leftmost_capture "/folders/" url id) /\
  (forall m, Re.search PAT_DRIVE_FOLDERS url = Some m <->
     exists id, m = Some id /\ leftmost_capture "/drive/folders/" url id) /\
  (forall m, Re.search PAT_ID_PARAM url = Some m <->
     exists id, m = Some id /\ leftmost_capture "id=" url id) /\
  (forall m, Re.search PAT_BARE_ID url = Some m <->
     exists id, m = Some id /\ bare_id url id).
Proof.
  split; [|split; [|repeat split;
    try apply (search_lit_Some "/folders/");
    try apply (search_lit_Some "/drive/folders/");
    try apply (search_lit_Some "id=");
    try apply search_bare_Some]];
  unfold extract_folder_id; rewrite patterns_shape; cbn [extract_with];
  destruct (search_lit_cases "/folders/" url) as [(id1 & E1 & H1)|[E1 H1]];
  destruct (search_lit_cases "/drive/folders/" url) as [(id2 & E2 & H2)|[E2 H2]];
  destruct (search_lit_cases "id=" url) as [(id3 & E3 & H3)|[E3 H3]];
  destruct (search_bare_cases url) as [(id4 & E4 & H4)|[E4 H4]];
  rewrite ?E1, ?E2, ?E3, ?E4.
  (* the identifier that is returned *)
  1-16: intros id; split;
    [ intros [= <-]; tauto
    | intros [H|[[? H]|[(? & ? & H)|(? & ? & ? & H)]]]; search_facts; congruence ].
  (* no identifier *)
  all: split; [ try discriminate; auto | ].
  all: intros (A & B & C & D); try reflexivity.
  all: try (exfalso; apply (D id4); assumption).
  all: search_facts; congruence.
Qed.

Example extract_from_folders_url :
  extract_folder_id "https://drive.google.com/drive/u/0/folders/1AbC_d-9?usp=sharing"
  = Some "1AbC_d-9".
Proof. reflexivity. Qed.

Example extract_from_id_parameter :
  extract_folder_id "https://drive.google.com/open?id=1AbC_d-9&authuser=0"
  = Some "1AbC_d-9".
Proof. reflexivity. Qed.

Example extract_from_bare_id :
  extract_folder_id "1a2B3c4D5e6F7g8H9i0J_k-LmN" = Some "1a2B3c4D5e6F7g8H9i0J_k-LmN".
Proof. reflexivity. Qed.

Example extract_from_other_text :
  extract_folder_id "not a folder link" = None.
Proof. reflexivity. Qed.

(** C9. The second pattern never decides: the extractor returns the same
    with and without it, since wherever /drive/folders/ID is found,
    /folders/ID is found too, with the same group. *)
Theorem second_pattern_redundant (url : string) :
  extract_folder_id url = extract_folder_id_3 url /\
  (forall i id, captures_at "/drive/folders/" url i id ->
                captures_at "/folders/" url (i + 6) id) /\
  (Re.search PAT_FOLDERS url = None -> Re.search PAT_DRIVE_FOLDERS url = None).
Proof.
  assert (Hnone : Re.search PAT_FOLDERS url = None ->
                  Re.search PAT_DRIVE_FOLDERS url = None).
  { intros H. apply (search_lit_None "/folders/") in H.
    apply (search_lit_None "/drive/folders/"). intros i id Hc.
    apply (H (i + 6) id). now apply drive_folders_capture_is_folders_capture. }
  repeat split; auto.
  - unfold extract_folder_id, extract_folder_id_3, patterns. cbn [extract_with].
    destruct (Re.search PAT_FOLDERS url) eqn:E1; auto.
    now rewrite Hnone.
  - apply drive_folders_capture_is_folders_capture.
Qed.

(** ** The state of the application *)

Lemma bind_run {A B} (m : M A) (f : A -> M B) (st : AppState) :
  (m ≫= f) st =
  match m st with
  | (Done a, st') => f a st'
  | (Stopped, st') => (Stopped, st')
  | (OutOfFuel, st') => (OutOfFuel, st')
  end.
Proof. reflexivity. Qed.

Lemma bind_done {A B} (m : M A) (f : A -> M B) (st st' : AppState) (a : A) :
  m st = (Done a, st') -> (m ≫= f) st = f a st'.
Proof. intros H. now rewrite bind_run, H. Qed.

Lemma emit_run (e : Event) (st : AppState) :
  emit e st = (Done tt, add_events st [e]).
Proof. reflexivity. Qed.

Lemma add_events_app (st : AppState) (e1 e2 : list Event) :
  add_events (add_events st e1) e2 = add_events st (e1 ++ e2).
Proof. unfold add_events. simpl. now rewrite app_assoc. Qed.

(** ** list_children *)

Lemma files_list_run (service : Drive) (folder_id : string)
    (tok : option string) (st : AppState) :
  files_list service folder_id tok st =
  (Done (service folder_id tok), add_events st [FilesList folder_id tok]).
Proof. reflexivity. Qed.

Lemma list_children_loop_walk (service : Drive) (folder_id : string)
    (tok : option string) (rs : list Response) :
  page_walk (service folder_id) tok rs ->
  forall fuel acc st, length rs <= fuel ->
    list_children_loop fuel service folder_id acc tok st =
    (Done (acc ++ merged rs), add_events st (requests folder_id tok rs)).
Proof.
  induction 1 as [tok Hlast | tok rs Hnext Hwalk IH]; intros fuel acc st Hfuel;
    (destruct fuel as [|fuel]; [simpl in Hfuel; lia|]);
    cbn [list_children_loop]; rewrite bind_run, files_list_run.
  - rewrite Hlast. cbn. unfold merged. cbn. now rewrite app_nil_r.
  - rewrite Hnext. cbn [negb]. rewrite IH by (simpl in Hfuel; lia).
    rewrite add_events_app. unfold merged. cbn. now rewrite app_assoc.
Qed.

Lemma in_merged (rs : list Response) (item : DriveItem) :
  In item (merged rs) <-> exists r, In r rs /\ In item (page_items r).
Proof.
  unfold merged. rewrite in_concat. split.
  - intros (l & Hl & Hin). apply in_map_iff in Hl as (r & <- & Hr). eauto.
  - intros (r & Hr & Hin). exists (page_items r). split; auto. now apply in_map.
Qed.

Lemma length_merged (rs : list Response) :
  length (merged rs) = list_sum (map (fun r => length (page_items r)) rs).
Proof.
  unfold merged. induction rs as [|r rs IH]; simpl; auto.
  now rewrite length_app, IH.
Qed.

(** C2 (amended). [list_children] follows the continuation tokens from
    the first page until a page carries no token or an empty one, and
    returns the item lists of these pages one after the other: every item
    of every page, as often as the pages hold it, and nothing else.  It
    sends one request per page. *)
Theorem list_children_merges_pages (service : Drive) (folder_id : string)
    (rs : list Response) (fuel : nat) (st : AppState) :
  page_walk (service folder_id) None rs ->
  length rs <= fuel ->
  list_children fuel service folder_id st =
    (Done (merged rs), add_events st (requests folder_id None rs)) /\
  (forall item, In item (merged rs) <->
                exists r, In r rs /\ In item (page_items r)) /\
  length (merged rs) = list_sum (map (fun r => length (page_items r)) rs).
Proof.
  intros Hwalk Hfuel. split; [|split].
  - unfold list_children.
    now rewrite (list_children_loop_walk _ _ _ _ Hwalk fuel [] st Hfuel).
  - apply in_merged.
  - apply length_merged.
Qed.

(** The theorem at a listing in three pages. *)
Lemma list_children_merges_pages_witness :
  let rs := [three_pages "root" None; three_pages "root" (Some "t1");
             three_pages "root" (Some "t2")] in
  page_walk (three_pages "root") None rs /\
  length rs <= 3 /\
  list_children 3 three_pages "root" st0 =
    (Done [mk_file "1" "a.mp3"; mk_file "2" "b.txt"; mk_file "3" "c.wav";
           mk_file "4" "d.ogg"],
     add_events st0 [FilesList "root" None; FilesList "root" (Some "t1");
                     FilesList "root" (Some "t2")]).
Proof.
  intros rs.
  assert (Hwalk : page_walk (three_pages "root") None rs).
  { apply (walk_next (three_pages "root") None); [reflexivity|].
    apply (walk_next (three_pages "root") (Some "t1")); [reflexivity|].
    apply (walk_last (three_pages "root") (Some "t2")). reflexivity. }
  assert (Hlen : length rs <= 3) by (simpl; lia).
  split; [exact Hwalk | split; [exact Hlen |]].
  exact (proj1 (list_children_merges_pages three_pages "root" rs 3 st0 Hwalk Hlen)).
Defined.

(** C2, as stated, fails: the loop also stops at a page whose token is
    present but empty, and the pages linked after it are not fetched. *)
Lemma list_children_stops_at_empty_token :
  let rs := [empty_token_pages "root" None;
             empty_token_pages "root" (Some EmptyString)] in
  page_chain (empty_token_pages "root") None rs /\
  merged rs = [mk_file "1" "a.mp3"; mk_file "2" "b.mp3"] /\
  (forall fuel st,
     result (list_children (S fuel) empty_token_pages "root") st =
     Done [mk_file "1" "a.mp3"]) /\
  (forall fuel st,
     result (list_children fuel empty_token_pages "root") st <> Done (merged rs)).
Proof.
  intros rs.
  assert (Hrun : forall fuel st,
    result (list_children (S fuel) empty_token_pages "root") st =
    Done [mk_file "1" "a.mp3"]) by reflexivity.
  repeat split; auto.
  - apply (chain_next (empty_token_pages "root") None EmptyString); [reflexivity|].
    apply (chain_last (empty_token_pages "root") (Some EmptyString)). reflexivity.
  - intros [|fuel] st; [discriminate|]. rewrite Hrun. intros [= H].
Qed.

(** ** Folder paths *)

Lemma join_snoc (x : string) (xs : list string) (n : string) :
  Str.join "/" ((x :: xs) ++ [n]) = Str.join "/" (x :: xs) +:+ "/" +:+ n.
Proof.
  revert x. induction xs as [|y xs IH]; intros x.
  - reflexivity.
  - change (Str.join "/" ((x :: y :: xs) ++ [n]))
      with (x +:+ "/" +:+ Str.join "/" ((y :: xs) ++ [n])).
    rewrite IH.
    change (Str.join "/" (x :: y :: xs)) with (x +:+ "/" +:+ Str.join "/" (y :: xs)).
    now rewrite !append_assoc.
Qed.

Lemma join_not_empty (x : string) (xs : list string) :
  x <> EmptyString -> Str.join "/" (x :: xs) <> EmptyString.
Proof.
  intros Hx. destruct x as [|c x]; [congruence|].
  destruct xs; simpl; discriminate.
Qed.

Lemma drop_empty_head (names : list string) :
  match drop_empty names with
  | [] => True
  | x :: _ => x <> EmptyString
  end.
Proof.
  induction names as [|[|c n] names IH]; simpl; auto.
Qed.

Lemma drop_empty_snoc (names : list string) (n : string) :
  drop_empty (names ++ [n]) =
  match drop_empty names with
  | [] => drop_empty [n]
  | l => l ++ [n]
  end.
Proof.
  induction names as [|[|c x] names IH]; simpl; auto.
Qed.

(** Entering a folder extends the path as [new_path] does. *)
Lemma new_path_folder_path (names : list string) (name : string) :
  new_path (folder_path names) name = folder_path (names ++ [name]).
Proof.
  unfold folder_path. rewrite drop_empty_snoc.
  pose proof (drop_empty_head names) as Hhead.
  destruct (drop_empty names) as [|x xs].
  - simpl. now destruct name.
  - rewrite join_snoc. unfold new_path.
    pose proof (join_not_empty x xs Hhead).
    destruct (Str.join "/" (x :: xs)); congruence.
Qed.

Lemma folder_path_slash_join (n : string) (names : list string) :
  n <> EmptyString -> folder_path (n :: names) = slash_join (n :: names).
Proof. intros Hn. destruct n; [congruence | reflexivity]. Qed.

(** ** scan_folder_recursive on folder trees *)

Lemma list_children_tree (fs : gmap string (list DriveItem)) (folder_id : string)
    (fuel : nat) (st : AppState) :
  list_children (S fuel) (tree_service fs) folder_id st =
  (Done (children fs folder_id), add_events st [FilesList folder_id None]).
Proof.
  unfold list_children. cbn [list_children_loop].
  rewrite bind_run, files_list_run. reflexivity.
Qed.

Lemma rows_of_folder (path_of : list string -> string) (names : list string)
    (item : DriveItem) (sub : list Entry) :
  rows_of path_of names (Folder item sub) =
  flat_map (rows_of path_of (names ++ [get_str item "name"])) sub.
Proof. reflexivity. Qed.

Lemma depth_folder (item : DriveItem) (sub : list Entry) :
  depth (Folder item sub) = S (list_max (map depth sub)).
Proof. reflexivity. Qed.

Lemma depth_cons (e : Entry) (es : list Entry) :
  list_max (map depth (e :: es)) = Nat.max (depth e) (list_max (map depth es)).
Proof. reflexivity. Qed.

Lemma scan_unfolds (fs : gmap string (list DriveItem)) (folder_id : string)
    (es : list Entry) :
  unfolds fs folder_id es ->
  forall names fuel st, list_max (map depth es) < fuel ->
    exists st',
      scan_folder_recursive fuel (tree_service fs) folder_id (folder_path names) st =
      (Done (flat_map (rows_of folder_path names) es), st').
Proof.
  intros H.
  induction H using unfolds_mind with
    (P0 := fun items es =>
       forall names fuel acc st, list_max (map depth es) <= fuel ->
         exists st',
           scan_items (scan_folder_recursive fuel (tree_service fs))
             (folder_path names) items acc st =
           (Done (acc ++ flat_map (rows_of folder_path names) es), st')).
  - intros names [|fuel] st Hfuel; [lia|].
    cbn [scan_folder_recursive]. rewrite bind_run, list_children_tree.
    assert (Hle : list_max (map depth es) <= fuel) by lia.
    destruct (IHunfolds names fuel [] (add_events st [FilesList folder_id None]) Hle)
      as [st' ->].
    eauto.
  - intros names fuel acc st _. exists st. cbn. now rewrite app_nil_r.
  - intros names fuel acc st Hfuel. cbn [scan_items]. rewrite H.
    rewrite depth_cons in Hfuel.
    assert (Hle : list_max (map depth es) <= fuel) by lia.
    destruct (is_audio_file (get_str item "name")) eqn:Haudio.
    + destruct (IHunfolds names fuel (acc ++ [audio_row item (folder_path names)]) st Hle)
        as [st' ->].
      exists st'. cbn [flat_map rows_of]. rewrite Haudio. now rewrite <- app_assoc.
    + destruct (IHunfolds names fuel acc st Hle) as [st' ->].
      exists st'. cbn [flat_map rows_of]. now rewrite Haudio.
  - intros names fuel acc st Hfuel. cbn [scan_items]. rewrite H.
    rewrite depth_cons, depth_folder in Hfuel.
    destruct fuel as [|fuel]; [lia|].
    assert (Hsub : list_max (map depth sub) < S fuel) by lia.
    assert (Hle : list_max (map depth es) <= S fuel) by lia.
    rewrite bind_run, new_path_folder_path.
    destruct (IHunfolds (names ++ [get_str item "name"]) (S fuel) st Hsub) as [st1 ->].
    destruct (IHunfolds0 names (S fuel)
                (acc ++ flat_map (rows_of folder_path (names ++ [get_str item "name"])) sub)
                st1 Hle) as [st' ->].
    exists st'. cbn [flat_map]. rewrite rows_of_folder. now rewrite <- app_assoc.
Qed.

Lemma unfolds_items_acyclic (fs : gmap string (list DriveItem)) (items : list DriveItem) :
  (forall item, In item items -> is_folder item = true ->
                exists sub, unfolds fs (get_str item "id") sub) ->
  exists es, unfolds_items fs items es.
Proof.
  induction items as [|item items IH]; intros Hsub.
  - exists []. constructor.
  - destruct IH as [es Hes]; [intros; apply Hsub; simpl; auto|].
    destruct (is_folder item) eqn:Hf.
    + destruct (Hsub item) as [sub Hs]; simpl; auto.
      exists (Folder item sub :: es). now constructor.
    + exists (File item :: es). now constructor.
Qed.

(** An acyclic hierarchy unfolds into a finite tree below every folder. *)
Lemma acyclic_unfolds (fs : gmap string (list DriveItem)) :
  acyclic fs -> forall folder_id, exists es, unfolds fs folder_id es.
Proof.
  intros [rank Hrank].
  assert (H : forall n folder_id, rank folder_id < n ->
                exists es, unfolds fs folder_id es).
  { induction n as [|n IH]; intros folder_id Hn; [lia|].
    destruct (unfolds_items_acyclic fs (children fs folder_id)) as [es Hes].
    - intros item Hin Hf. apply IH.
      unfold children in Hin. destruct (fs !! folder_id) as [items|] eqn:Hl.
      + specialize (Hrank folder_id items item Hl Hin Hf). lia.
      + destruct Hin.
    - exists es. now constructor. }
  intros folder_id. apply (H (S (rank folder_id))). lia.
Qed.

(** C1 (amended). On an acyclic folder hierarchy the scan started at the
    root returns, depth first and in listing order, exactly the rows of
    the items that are not folders and whose names classify as audio;
    folders give no row of their own.  The Folder Path of a row joins
    with slashes the names of the folders from the root down to the
    item, without the empty names at its front; it is the plain join
    when the first name is not empty. *)
Theorem scan_returns_audio_rows (fs : gmap string (list DriveItem)) (root : string) :
  acyclic fs ->
  exists es,
    unfolds fs root es /\
    (forall fuel st, list_max (map depth es) < fuel ->
       result (scan_folder_recursive fuel (tree_service fs) root EmptyString) st =
       Done (flat_map (rows_of folder_path []) es)) /\
    (forall n names, n <> EmptyString ->
       folder_path (n :: names) = slash_join (n :: names)).
Proof.
  intros Hacyclic.
  destruct (acyclic_unfolds fs Hacyclic root) as [es Hes].
  exists es. split; [exact Hes | split].
  - intros fuel st Hfuel.
    destruct (scan_unfolds fs root es Hes [] fuel st Hfuel) as [st' Hrun].
    change (folder_path []) with EmptyString in Hrun at 1.
    unfold result. now rewrite Hrun.
  - intros n names. apply folder_path_slash_join.
Qed.

Lemma unfolds_unique (fs : gmap string (list DriveItem)) (folder_id : string)
    (es : list Entry) :
  unfolds fs folder_id es -> forall es', unfolds fs folder_id es' -> es' = es.
Proof.
  intros H.
  induction H using unfolds_mind with
    (P0 := fun items es => forall es', unfolds_items fs items es' -> es' = es).
  - intros es' H'. inversion H'; subst. auto.
  - intros es' H'. now inversion H'.
  - intros es' H'. inversion H'; subst; [|congruence].
    f_equal. auto.
  - intros es' H'. inversion H'; subst; [congruence|].
    f_equal; [f_equal|]; auto.
Qed.

(** Settles [acyclic] for a hierarchy written with [insert]. *)
Ltac solve_acyclic fs rank :=
  exists rank; intros folder_id items item Hl Hin Hf; unfold fs in Hl;
  repeat (apply lookup_insert_Some in Hl as [[<- <-]|[_ Hl]];
          [ repeat (destruct Hin as [<-|Hin];
                    [ first [ discriminate Hf | vm_compute; lia ] |]);
            destruct Hin |]);
  rewrite lookup_empty in Hl; discriminate Hl.

Ltac solve_unfolds :=
  repeat first
    [ apply unfolds_nil
    | apply unfolds_folder
    | apply unfolds_sub; [reflexivity | |]
    | apply unfolds_file; [reflexivity |] ].

Lemma sample_tree_acyclic : acyclic sample_tree.
Proof. solve_acyclic sample_tree sample_rank. Qed.

Lemma sample_tree_unfolds : unfolds sample_tree "root" sample_entries.
Proof. solve_unfolds. Qed.

Lemma nameless_tree_acyclic : acyclic nameless_tree.
Proof. solve_acyclic nameless_tree nameless_rank. Qed.

Lemma nameless_tree_unfolds : unfolds nameless_tree "root" nameless_entries.
Proof. solve_unfolds. Qed.

(** The theorem at the three-level sample. *)
Lemma scan_returns_audio_rows_witness :
  acyclic sample_tree /\
  exists es,
    unfolds sample_tree "root" es /\
    (forall fuel st, list_max (map depth es) < fuel ->
       result (scan_folder_recursive fuel (tree_service sample_tree) "root" EmptyString) st =
       Done (flat_map (rows_of folder_path []) es)) /\
    (forall n names, n <> EmptyString ->
       folder_path (n :: names) = slash_join (n :: names)).
Proof.
  split; [exact sample_tree_acyclic|].
  exact (scan_returns_audio_rows sample_tree "root" sample_tree_acyclic).
Defined.

(** The walk of the three-level sample: the audio files only, each with
    the path of its folder. *)
Example scan_sample_tree (st : AppState) :
  result (scan_folder_recursive 3 (tree_service sample_tree) "root" EmptyString) st =
  Done [audio_row (mk_file "1" "intro.mp3") EmptyString;
        audio_row (mk_file "3" "Song.MP3") "Albums";
        audio_row (mk_file "5" "set.flac") "Albums/Live"].
Proof.
  destruct (scan_unfolds _ _ _ sample_tree_unfolds [] 3 st) as [st' H];
    [vm_compute; lia|].
  change (folder_path []) with EmptyString in H at 1.
  unfold result. rewrite H. reflexivity.
Qed.

(** C1, as stated, fails: below a top-level folder with an empty name the
    path is not the slash-joined list of names ("a" where the join of
    the empty name and "a" is "/a"). *)
Lemma scan_path_drops_empty_names :
  acyclic nameless_tree /\
  unfolds nameless_tree "root" nameless_entries /\
  flat_map (rows_of slash_join []) nameless_entries =
    [audio_row (mk_file "x" "x.mp3") "/a"] /\
  (forall st,
     result (scan_folder_recursive 3 (tree_service nameless_tree) "root" EmptyString) st =
     Done [audio_row (mk_file "x" "x.mp3") "a"]) /\
  (forall fuel st,
     result (scan_folder_recursive fuel (tree_service nameless_tree) "root" EmptyString) st <>
     Done (flat_map (rows_of slash_join []) nameless_entries)).
Proof.
  assert (Hrun : forall fuel st, 2 < fuel ->
    result (scan_folder_recursive fuel (tree_service nameless_tree) "root" EmptyString) st =
    Done [audio_row (mk_file "x" "x.mp3") "a"]).
  { intros fuel st Hfuel.
    destruct (scan_unfolds _ _ _ nameless_tree_unfolds [] fuel st) as [st' H];
      [exact Hfuel|].
    change (folder_path []) with EmptyString in H at 1.
    unfold result. rewrite H. reflexivity. }
  split; [exact nameless_tree_acyclic|].
  split; [exact nameless_tree_unfolds|].
  split; [reflexivity|].
  split; [intros st; apply Hrun; lia|].
  intros fuel st.
  destruct fuel as [|[|[|fuel]]]; try (rewrite Hrun by lia); discriminate.
Qed.

(** ** The rows of scan_folder_recursive *)

Lemma bind_done_inv {A B} (m : M A) (f : A -> M B) (st st' : AppState) (b : B) :
  (m ≫= f) st = (Done b, st') ->
  exists a st1, m st = (Done a, st1) /\ f a st1 = (Done b, st').
Proof.
  rewrite bind_run. destruct (m st) as [[a| |] st1]; try discriminate. eauto.
Qed.

Lemma scan_items_rows (recur : string -> string -> M (list Row)) (path : string) :
  (forall folder_id p st rows st',
     recur folder_id p st = (Done rows, st') -> Forall row_of_audio_item rows) ->
  forall items acc st rows st',
    Forall row_of_audio_item acc ->
    scan_items recur path items acc st = (Done rows, st') ->
    Forall row_of_audio_item rows.
Proof.
  intros Hrec. induction items as [|item items IH]; intros acc st rows st' Hacc Hrun.
  - cbn in Hrun. injection Hrun as <- <-. exact Hacc.
  - cbn [scan_items] in Hrun. destruct (is_folder item) eqn:Hf.
    + apply bind_done_inv in Hrun as (sub & st1 & Hsub & Hrun).
      apply (IH _ _ _ _ (Forall_app_2 _ _ _ Hacc (Hrec _ _ _ _ _ Hsub)) Hrun).
    + destruct (is_audio_file (get_str item "name")) eqn:Ha.
      * refine (IH _ _ _ _ (Forall_app_2 _ _ _ Hacc _) Hrun).
        constructor; [|constructor]. exists item, path. auto.
      * apply (IH _ _ _ _ Hacc Hrun).
Qed.

Lemma scan_rows (service : Drive) (fuel : nat) :
  forall folder_id path st rows st',
    scan_folder_recursive fuel service folder_id path st = (Done rows, st') ->
    Forall row_of_audio_item rows.
Proof.
  induction fuel as [|fuel IH]; intros folder_id path st rows st' Hrun.
  - discriminate.
  - cbn [scan_folder_recursive] in Hrun.
    apply bind_done_inv in Hrun as (items & st1 & _ & Hrun).
    apply (scan_items_rows _ path IH items [] st1 rows st'); auto.
Qed.

(** C8. Every row that the scan emits comes from an audio item, and
    with the file identifier id of that item its share link is
    https://drive.google.com/file/d/{id}/view?usp=sharing and its direct
    download link is https://drive.google.com/uc?id={id}. *)
Theorem emitted_rows_carry_links (service : Drive) (fuel : nat)
    (folder_id path : string) (st st' : AppState) (rows : list Row) (row : Row) :
  scan_folder_recursive fuel service folder_id path st = (Done rows, st') ->
  In row rows ->
  exists item p,
    is_folder item = false /\ is_audio_file (get_str item "name") = true /\
    let id := get_str item "id" in
    row = [get_str item "name"; p; get_str item "webViewLink";
           "https://drive.google.com/file/d/" +:+ id +:+ "/view?usp=sharing";
           "https://drive.google.com/uc?id=" +:+ id;
           get_str item "createdTime"; id].
Proof.
  intros Hrun Hin.
  pose proof (scan_rows _ _ _ _ _ _ _ Hrun) as Hall.
  rewrite Forall_forall in Hall.
  destruct (Hall row) as (item & p & -> & Hf & Ha).
  - now apply list_elem_of_In.
  - exists item, p. auto.
Qed.

(** The theorem at the second row of the three-level sample. *)
Lemma emitted_rows_carry_links_witness :
  exists item p,
    is_folder item = false /\ is_audio_file (get_str item "name") = true /\
    let id := get_str item "id" in
    ["Song.MP3"; "Albums"; EmptyString;
     "https://drive.google.com/file/d/3/view?usp=sharing";
     "https://drive.google.com/uc?id=3"; EmptyString; "3"] =
    [get_str item "name"; p; get_str item "webViewLink";
     "https://drive.google.com/file/d/" +:+ id +:+ "/view?usp=sharing";
     "https://drive.google.com/uc?id=" +:+ id;
     get_str item "createdTime"; id].
Proof.
  apply (emitted_rows_carry_links (tree_service sample_tree) 3 "root" EmptyString
           st0 (snd (scan_folder_recursive 3 (tree_service sample_tree) "root"
                       EmptyString st0))
           [audio_row (mk_file "1" "intro.mp3") EmptyString;
            audio_row (mk_file "3" "Song.MP3") "Albums";
            audio_row (mk_file "5" "set.flac") "Albums/Live"]).
  - vm_compute. reflexivity.
  - right. left. vm_compute. reflexivity.
Defined.

(** ** The path of the items in the root *)

Lemma new_path_empty (name : string) : new_path EmptyString name = name.
Proof. reflexivity. Qed.

Lemma new_path_not_empty (path name : string) :
  path <> EmptyString -> new_path path name = path +:+ "/" +:+ name.
Proof. intros H. destruct path; [congruence | reflexivity]. Qed.

Lemma folder_path_single (n : string) : folder_path [n] = n.
Proof. now destruct n. Qed.

Lemma unfolds_items_parts (fs : gmap string (list DriveItem)) (bound : nat)
    (items : list DriveItem) (es : list Entry) :
  unfolds_items fs items es ->
  list_max (map depth es) <= bound ->
  Forall2 (root_item_part (tree_service fs) bound) items
    (map (rows_of folder_path []) es).
Proof.
  induction 1 as [|item items es Hf Hes IH|item items sub es Hf Hsub Hes IH];
    intros Hbound; cbn [map].
  - constructor.
  - rewrite depth_cons in Hbound.
    constructor; [|apply IH; lia].
    unfold root_item_part. rewrite Hf. cbn [rows_of].
    now destruct (is_audio_file (get_str item "name")).
  - rewrite depth_cons, depth_folder in Hbound.
    constructor; [|apply IH; lia].
    unfold root_item_part. rewrite Hf. intros fuel st Hfuel.
    destruct (scan_unfolds fs _ _ Hsub [get_str item "name"] fuel st) as [st' Hrun];
      [lia|].
    rewrite folder_path_single in Hrun. unfold result. now rewrite Hrun.
Qed.

(** C10. The scan of an acyclic hierarchy started at the root returns the
    parts that the items of the root listing add, in their order: an audio
    file there gives one row whose Folder Path is the empty string, and a
    folder there gives the rows of its scan under the path that is just
    its own name, so the name of the root appears in no path.  A slash
    goes before a folder name only when the path so far is not empty. *)
Theorem root_items_have_empty_path (fs : gmap string (list DriveItem)) (root : string) :
  acyclic fs ->
  exists (parts : list (list Row)) (bound : nat),
    (forall fuel st, bound < fuel ->
       result (scan_folder_recursive fuel (tree_service fs) root EmptyString) st =
       Done (concat parts)) /\
    Forall2 (root_item_part (tree_service fs) bound) (children fs root) parts /\
    (forall name, new_path EmptyString name = name) /\
    (forall path name, path <> EmptyString ->
       new_path path name = path +:+ "/" +:+ name).
Proof.
  intros Hacyclic.
  destruct (acyclic_unfolds fs Hacyclic root) as [es Hes].
  exists (map (rows_of folder_path []) es), (list_max (map depth es)).
  split; [|split; [|split]].
  - intros fuel st Hfuel.
    destruct (scan_unfolds fs root es Hes [] fuel st Hfuel) as [st' Hrun].
    change (folder_path []) with EmptyString in Hrun at 1.
    unfold result. rewrite Hrun. cbn [fst]. now rewrite flat_map_concat_map.
  - inversion Hes; subst. now apply unfolds_items_parts.
  - apply new_path_empty.
  - apply new_path_not_empty.
Qed.

(** The theorem at the three-level sample. *)
Lemma root_items_have_empty_path_witness :
  acyclic sample_tree /\
  exists (parts : list (list Row)) (bound : nat),
    (forall fuel st, bound < fuel ->
       result (scan_folder_recursive fuel (tree_service sample_tree) "root"
                 EmptyString) st =
       Done (concat parts)) /\
    Forall2 (root_item_part (tree_service sample_tree) bound)
      (children sample_tree "root") parts /\
    (forall name, new_path EmptyString name = name) /\
    (forall path name, path <> EmptyString ->
       new_path path name = path +:+ "/" +:+ name).
Proof.
  split; [exact sample_tree_acyclic|].
  exact (root_items_have_empty_path sample_tree "root" sample_tree_acyclic).
Defined.

(** ** The events of a run *)

Lemma requests_only_refl (st : AppState) : requests_only st st.
Proof. split; auto. exists []. split; [now rewrite app_nil_r | constructor]. Qed.

Lemma requests_only_trans (a b c : AppState) :
  requests_only a b -> requests_only b c -> requests_only a c.
Proof.
  intros [Hc1 (e1 & He1 & Hf1)] [Hc2 (e2 & He2 & Hf2)]. split; [congruence|].
  exists (e1 ++ e2). split.
  - now rewrite He2, He1, app_assoc.
  - now apply Forall_app_2.
Qed.

Lemma requests_only_bind {A B} (m : M A) (f : A -> M B) (st : AppState) :
  requests_only st (snd (m st)) ->
  (forall a st1, requests_only st1 (snd (f a st1))) ->
  requests_only st (snd ((m ≫= f) st)).
Proof.
  intros Hm Hf. rewrite bind_run. destruct (m st) as [[a| |] st1]; auto.
  eapply requests_only_trans; [exact Hm | apply Hf].
Qed.

Lemma files_list_requests_only (service : Drive) (folder_id : string)
    (tok : option string) (st : AppState) :
  requests_only st (snd (files_list service folder_id tok st)).
Proof.
  rewrite files_list_run. split; auto.
  exists [FilesList folder_id tok]. split; auto.
Qed.

Lemma list_children_requests_only (service : Drive) (folder_id : string)
    (fuel : nat) (st : AppState) :
  requests_only st (snd (list_children fuel service folder_id st)).
Proof.
  unfold list_children. generalize (@nil DriveItem) (@None string). revert st.
  induction fuel as [|fuel IH]; intros st acc tok.
  - apply requests_only_refl.
  - cbn [list_children_loop]. apply requests_only_bind.
    + apply files_list_requests_only.
    + intros resp st1. destruct (negb (truthy (nextPageToken resp))).
      * apply requests_only_refl.
      * apply IH.
Qed.

Lemma scan_items_requests_only (recur : string -> string -> M (list Row))
    (path : string) :
  (forall folder_id p st, requests_only st (snd (recur folder_id p st))) ->
  forall items acc st, requests_only st (snd (scan_items recur path items acc st)).
Proof.
  intros Hrec. induction items as [|item items IH]; intros acc st.
  - apply requests_only_refl.
  - cbn [scan_items]. destruct (is_folder item).
    + apply requests_only_bind; [apply Hrec | intros; apply IH].
    + destruct (is_audio_file (get_str item "name")); apply IH.
Qed.

Lemma scan_requests_only (service : Drive) (fuel : nat) :
  forall folder_id path st,
    requests_only st (snd (scan_folder_recursive fuel service folder_id path st)).
Proof.
  induction fuel as [|fuel IH]; intros folder_id path st.
  - apply requests_only_refl.
  - cbn [scan_folder_recursive]. apply requests_only_bind.
    + apply list_children_requests_only.
    + intros items st1. now apply scan_items_requests_only.
Qed.

(** ** run_extraction *)

Lemma leftmost_capture_not_empty (L url id : string) :
  leftmost_capture L url id -> id <> EmptyString.
Proof. intros (i & (pre & post & _ & _ & Hne & _) & _). exact Hne. Qed.

Lemma bare_id_not_empty (url id : string) : bare_id url id -> id <> EmptyString.
Proof. intros (_ & _ & Hlen) ->. simpl in Hlen. lia. Qed.

(** The identifier that [extract_folder_id] returns is never empty. *)
Lemma extract_folder_id_not_empty (url id : string) :
  extract_folder_id url = Some id -> id <> EmptyString.
Proof.
  unfold extract_folder_id. rewrite patterns_shape. cbn [extract_with].
  destruct (search_lit_cases "/folders/" url) as [(id1 & -> & H1)|[-> H1]];
    [intros [= <-]; eapply leftmost_capture_not_empty; eauto|].
  destruct (search_lit_cases "/drive/folders/" url) as [(id2 & -> & H2)|[-> H2]];
    [intros [= <-]; eapply leftmost_capture_not_empty; eauto|].
  destruct (search_lit_cases "id=" url) as [(id3 & -> & H3)|[-> H3]];
    [intros [= <-]; eapply leftmost_capture_not_empty; eauto|].
  destruct (search_bare_cases url) as [(id4 & -> & H4)|[-> H4]];
    [intros [= <-]; eapply bare_id_not_empty; eauto | discriminate].
Qed.

Lemma run_extraction_invalid (fuel : nat) (env : Env) (st : AppState) :
  extract_folder_id (folder_url env) = None ->
  run_extraction fuel env st =
  (Done tt, add_events st [StError "Invalid folder URL / ID"]).
Proof. intros H. unfold run_extraction. now rewrite H. Qed.

Lemma run_extraction_valid (fuel : nat) (env : Env) (folder_id : string) :
  extract_folder_id (folder_url env) = Some folder_id ->
  run_extraction fuel env = run_scan fuel env folder_id.
Proof.
  intros H. pose proof (extract_folder_id_not_empty _ _ H) as Hne.
  unfold run_extraction. rewrite H. now destruct folder_id.
Qed.

Lemma get_drive_service_cases (env : Env) (st : AppState) :
  (service_cached st = true /\
   get_drive_service env st = (Done (drive env), st)) \/
  (service_cached st = false /\ secret_present env = false /\
   get_drive_service env st =
   (Stopped, add_events st [StError "Missing Streamlit secret: gcp_service_account"])) \/
  (service_cached st = false /\ secret_present env = true /\
   get_drive_service env st =
   (Done (drive env),
    {| service_cached := true; events := events st ++ [BuildService] |})).
Proof.
  unfold get_drive_service.
  destruct (service_cached st) eqn:Hc; [now left | right].
  destruct (secret_present env) eqn:Hs; [right | left]; auto.
Qed.

(** The events that a successful [get_drive_service] adds. *)
Lemma get_drive_service_done (env : Env) (st st1 : AppState) (service : Drive) :
  get_drive_service env st = (Done service, st1) ->
  service = drive env /\
  exists evs, events st1 = events st ++ evs /\ (evs = [] \/ evs = [BuildService]).
Proof.
  intros H.
  destruct (get_drive_service_cases env st)
    as [[_ E]|[(_ & _ & E)|(_ & _ & E)]]; rewrite E in H.
  - injection H as <- <-. split; auto. exists []. split; auto. now rewrite app_nil_r.
  - discriminate.
  - injection H as <- <-. split; auto. exists [BuildService]. split; auto.
Qed.

Lemma run_scan_done (fuel : nat) (env : Env) (folder_id : string)
    (st st1 st2 : AppState) (service : Drive) (rows : list Row) :
  get_drive_service env st = (Done service, st1) ->
  scan_folder_recursive fuel service folder_id EmptyString
    (add_events st1 [StSpinner "Scanning Drive folder recursively..."]) =
    (Done rows, st2) ->
  run_scan fuel env folder_id st =
  (Done tt,
   add_events st2
     [StSuccess ("Done. Found " +:+ Str.of_nat (length rows) +:+ " audio files.");
      match rows with
      | [] => StWarning
          "No audio files found, or the folder isn't shared with the service account."
      | _ :: _ => StDownloadButton "Download CSV" (csv_of rows)
                    "audio_links.csv" "text/csv"
      end]).
Proof.
  intros Hservice Hscan. unfold run_scan.
  rewrite (bind_done _ _ _ _ _ Hservice).
  rewrite bind_run, emit_run.
  rewrite (bind_done _ _ _ _ _ Hscan).
  rewrite bind_run, emit_run.
  destruct rows; rewrite emit_run, add_events_app; reflexivity.
Qed.

Lemma emitted_events {A} (m : M A) (st : AppState) (evs : list Event) :
  events (snd (m st)) = events st ++ evs -> emitted m st = evs.
Proof. intros H. unfold emitted. rewrite H. apply drop_app_length. Qed.

(** C7. When [extract_folder_id] finds no folder reference,
    [run_extraction] shows the error and returns at once: the error is
    the only event, so no client is built, no listing is requested and no
    CSV is offered, and the cached client is what it was. *)
Theorem invalid_reference_aborts (fuel : nat) (env : Env) (st : AppState) :
  extract_folder_id (folder_url env) = None ->
  run_extraction fuel env st =
    (Done tt, add_events st [StError "Invalid folder URL / ID"]) /\
  emitted (run_extraction fuel env) st = [StError "Invalid folder URL / ID"] /\
  service_cached (snd (run_extraction fuel env st)) = service_cached st /\
  (forall e, In e (emitted (run_extraction fuel env) st) ->
             e <> BuildService /\ is_request e = false /\ is_download e = false).
Proof.
  intros Hnone. pose proof (run_extraction_invalid fuel env st Hnone) as Hrun.
  assert (Hev : emitted (run_extraction fuel env) st =
                [StError "Invalid folder URL / ID"]).
  { apply emitted_events. now rewrite Hrun. }
  split; [exact Hrun | split; [exact Hev | split]].
  - now rewrite Hrun.
  - rewrite Hev. intros e [<-|[]]. repeat split; discriminate.
Qed.

(** The theorem at a text that holds no folder reference. *)
Lemma invalid_reference_aborts_witness :
  extract_folder_id (folder_url env_invalid) = None /\
  run_extraction 5 env_invalid st0 =
    (Done tt, add_events st0 [StError "Invalid folder URL / ID"]) /\
  emitted (run_extraction 5 env_invalid) st0 = [StError "Invalid folder URL / ID"] /\
  service_cached (snd (run_extraction 5 env_invalid st0)) = service_cached st0 /\
  (forall e, In e (emitted (run_extraction 5 env_invalid) st0) ->
             e <> BuildService /\ is_request e = false /\ is_download e = false).
Proof.
  split; [reflexivity|].
  apply (invalid_reference_aborts 5 env_invalid st0). reflexivity.
Defined.

Lemma no_download_app (a b : list Event) :
  Forall (fun e => is_download e = false) a ->
  Forall (fun e => is_download e = false) b ->
  Forall (fun e => is_download e = false) (a ++ b).
Proof. apply Forall_app_2. Qed.

Lemma requests_no_download (evs : list Event) :
  Forall (fun e => is_request e = true) evs ->
  Forall (fun e => is_download e = false) evs.
Proof. intros H. eapply Forall_impl; [exact H|]. now intros []. Qed.

(** The events of [run_scan]: a download button can only be the last one,
    after a scan that returned rows. *)
Lemma run_scan_events (fuel : nat) (env : Env) (folder_id : string) (st : AppState) :
  exists evs,
    events (snd (run_scan fuel env folder_id st)) = events st ++ evs /\
    (Forall (fun e => is_download e = false) evs \/
     exists service st1 st2 rows pre,
       scan_folder_recursive fuel service folder_id EmptyString st1 = (Done rows, st2) /\
       rows <> [] /\
       Forall (fun e => is_download e = false) pre /\
       evs = pre ++ [StDownloadButton "Download CSV" (csv_of rows)
                       "audio_links.csv" "text/csv"]).
Proof.
  destruct (get_drive_service env st) as [[service| |] st1] eqn:Hservice.
  - destruct (get_drive_service_done _ _ _ _ Hservice) as (_ & evs1 & Hev1 & Hevs1).
    assert (Hnd1 : Forall (fun e => is_download e = false) evs1).
    { destruct Hevs1 as [-> | ->]; repeat constructor. }
    remember (add_events st1 [StSpinner "Scanning Drive folder recursively..."])
      as st1' eqn:Hst1'.
    pose proof (scan_requests_only service fuel folder_id EmptyString st1')
      as (_ & evs2 & Hev2 & Hreq).
    apply requests_no_download in Hreq.
    assert (Hspin : events st1' = events st ++ evs1 ++
                      [StSpinner "Scanning Drive folder recursively..."]).
    { rewrite Hst1'. cbn [add_events events]. now rewrite Hev1, <- app_assoc. }
    destruct (scan_folder_recursive fuel service folder_id EmptyString st1')
      as [[rows| |] st2] eqn:Hscan; cbn [snd] in Hev2.
    + pose proof Hscan as Hscan'. rewrite Hst1' in Hscan'.
      rewrite (run_scan_done _ _ _ _ _ _ _ _ Hservice Hscan').
      cbn [snd add_events events]. rewrite Hev2, Hspin.
      destruct rows as [|row rows].
      * eexists. split; [rewrite <- !app_assoc; reflexivity|].
        left. repeat apply no_download_app; auto; repeat constructor.
      * eexists. split; [rewrite <- !app_assoc; reflexivity|].
        right. exists service, st1', st2, (row :: rows).
        exists (evs1 ++ [StSpinner "Scanning Drive folder recursively..."] ++ evs2 ++
                [StSuccess ("Done. Found " +:+ Str.of_nat (length (row :: rows))
                            +:+ " audio files.")]).
        split; [exact Hscan | split; [discriminate | split]].
        -- repeat apply no_download_app; auto; repeat constructor.
        -- now rewrite <- !app_assoc.
    + unfold run_scan. rewrite (bind_done _ _ _ _ _ Hservice), bind_run, emit_run.
      rewrite <- Hst1', bind_run, Hscan. cbn [snd]. rewrite Hev2, Hspin.
      eexists. split; [rewrite <- !app_assoc; reflexivity|].
      left. repeat apply no_download_app; auto; repeat constructor.
    + unfold run_scan. rewrite (bind_done _ _ _ _ _ Hservice), bind_run, emit_run.
      rewrite <- Hst1', bind_run, Hscan. cbn [snd]. rewrite Hev2, Hspin.
      eexists. split; [rewrite <- !app_assoc; reflexivity|].
      left. repeat apply no_download_app; auto; repeat constructor.
  - unfold run_scan. rewrite bind_run, Hservice. cbn [snd].
    destruct (get_drive_service_cases env st)
      as [[_ E]|[(_ & _ & E)|(_ & _ & E)]]; rewrite E in Hservice; try discriminate.
    injection Hservice as <-. eexists. split; [reflexivity|].
    left. repeat constructor.
  - destruct (get_drive_service_cases env st)
      as [[_ E]|[(_ & _ & E)|(_ & _ & E)]]; rewrite E in Hservice; discriminate.
Qed.

Lemma run_extraction_events (fuel : nat) (env : Env) (st : AppState) :
  exists evs,
    events (snd (run_extraction fuel env st)) = events st ++ evs /\
    (Forall (fun e => is_download e = false) evs \/
     exists folder_id service st1 st2 rows pre,
       extract_folder_id (folder_url env) = Some folder_id /\
       scan_folder_recursive fuel service folder_id EmptyString st1 = (Done rows, st2) /\
       rows <> [] /\
       Forall (fun e => is_download e = false) pre /\
       evs = pre ++ [StDownloadButton "Download CSV" (csv_of rows)
                       "audio_links.csv" "text/csv"]).
Proof.
  destruct (extract_folder_id (folder_url env)) as [folder_id|] eqn:Hextract.
  - rewrite (run_extraction_valid _ _ _ Hextract).
    destruct (run_scan_events fuel env folder_id st)
      as (evs & Hev & [Hnd|(service & st1 & st2 & rows & pre & H)]).
    + exists evs. auto.
    + exists evs. split; auto. right. exists folder_id, service, st1, st2, rows, pre.
      tauto.
  - rewrite (run_extraction_invalid _ _ _ Hextract).
    eexists. split; [reflexivity|]. left. repeat constructor.
Qed.

(** C6. When the scan returns no row, [run_extraction] reports the
    number found and a warning and returns; it offers no download.  In any
    run, a download button is offered only for a scan that returned at
    least one row, and it carries the CSV of these rows. *)
Theorem empty_result_warns_without_download (fuel : nat) (env : Env)
    (st st1 st2 : AppState) (folder_id : string) (service : Drive) :
  extract_folder_id (folder_url env) = Some folder_id ->
  get_drive_service env st = (Done service, st1) ->
  scan_folder_recursive fuel service folder_id EmptyString
    (add_events st1 [StSpinner "Scanning Drive folder recursively..."]) =
    (Done [], st2) ->
  run_extraction fuel env st =
    (Done tt,
     add_events st2
       [StSuccess "Done. Found 0 audio files.";
        StWarning
          "No audio files found, or the folder isn't shared with the service account."]) /\
  Forall (fun e => is_download e = false) (emitted (run_extraction fuel env) st) /\
  (forall fuel' env' st' label data file_name mime,
     In (StDownloadButton label data file_name mime)
        (emitted (run_extraction fuel' env') st') ->
     exists folder_id' service' sa sb rows,
       extract_folder_id (folder_url env') = Some folder_id' /\
       scan_folder_recursive fuel' service' folder_id' EmptyString sa = (Done rows, sb) /\
       rows <> [] /\ data = csv_of rows).
Proof.
  intros Hextract Hservice Hscan.
  assert (Hrun : run_extraction fuel env st =
    (Done tt,
     add_events st2
       [StSuccess "Done. Found 0 audio files.";
        StWarning
          "No audio files found, or the folder isn't shared with the service account."])).
  { rewrite (run_extraction_valid _ _ _ Hextract).
    now rewrite (run_scan_done _ _ _ _ _ _ _ _ Hservice Hscan). }
  split; [exact Hrun | split].
  - destruct (run_extraction_events fuel env st)
      as (evs & Hev & [Hnd|(f & s & sa & sb & rows & pre & _ & _ & _ & _ & ->)]).
    + now rewrite (emitted_events _ _ _ Hev).
    + exfalso. rewrite Hrun in Hev. cbn [snd add_events events] in Hev.
      pose proof (scan_requests_only service fuel folder_id EmptyString
        (add_events st1 [StSpinner "Scanning Drive folder recursively..."]))
        as (_ & evs2 & Hev2 & _).
      rewrite Hscan in Hev2. cbn [snd] in Hev2.
      rewrite !app_assoc in Hev.
      change [StSuccess "Done. Found 0 audio files.";
              StWarning "No audio files found, or the folder isn't shared with the service account."]
        with ([StSuccess "Done. Found 0 audio files."] ++
              [StWarning "No audio files found, or the folder isn't shared with the service account."])
        in Hev.
      rewrite !app_assoc in Hev. apply app_inj_tail in Hev as [_ Hev]. discriminate.
  - intros fuel' env' st' label data file_name mime Hin.
    destruct (run_extraction_events fuel' env' st')
      as (evs & Hev & [Hnd|(f & s & sa & sb & rows & pre & He & Hs & Hne & Hpre & ->)]);
      rewrite (emitted_events _ _ _ Hev) in Hin.
    + rewrite Forall_forall in Hnd. apply list_elem_of_In, Hnd in Hin. discriminate.
    + apply in_app_or in Hin as [Hin|[Hin|[]]].
      * rewrite Forall_forall in Hpre. apply list_elem_of_In, Hpre in Hin. discriminate.
      * injection Hin as <- <- <- <-. exists f, s, sa, sb, rows. auto.
Qed.

(** The theorem at a folder without children. *)
Lemma empty_result_warns_without_download_witness :
  let st1 := {| service_cached := true; events := [BuildService] |} in
  let st2 := add_events st1 [StSpinner "Scanning Drive folder recursively...";
                             FilesList "1AbC" None] in
  run_extraction 1 env_empty_folder st0 =
    (Done tt,
     add_events st2
       [StSuccess "Done. Found 0 audio files.";
        StWarning
          "No audio files found, or the folder isn't shared with the service account."]) /\
  Forall (fun e => is_download e = false)
    (emitted (run_extraction 1 env_empty_folder) st0).
Proof.
  intros st1 st2.
  destruct (empty_result_warns_without_download 1 env_empty_folder st0 st1 st2
              "1AbC" (tree_service ∅)) as (H1 & H2 & _).
  - reflexivity.
  - reflexivity.
  - reflexivity.
  - split; [exact H1 | exact H2].
Defined.

(** ** CSV: the reader, character by character *)

Lemma parse_line_chars (r : Csv.Reader) (line : string) :
  Csv.parse_line r line =
  match parse_chars r line with
  | Some r' => Csv.parse_process_char r' Csv.EOL
  | None => None
  end.
Proof.
  revert r. induction line as [|c line IH]; intros r; simpl; auto.
  destruct (Csv.parse_process_char r (Csv.Char c)); auto.
Qed.

Lemma parse_chars_app (r : Csv.Reader) (a b : string) :
  parse_chars r (a +:+ b) =
  match parse_chars r a with
  | Some r' => parse_chars r' b
  | None => None
  end.
Proof.
  revert r. induction a as [|c a IH]; intros r; simpl; auto.
  destruct (Csv.parse_process_char r (Csv.Char c)); auto.
Qed.

(** A line that is begun is the head of the lines to come. *)
Lemma lines_from_open (cur s : string) :
  cur <> EmptyString ->
  exists more rest, Csv.lines_from cur s = (cur +:+ more) :: rest.
Proof.
  revert cur. induction s as [|c s IH]; intros cur Hcur; simpl.
  - exists EmptyString, []. rewrite append_nil_r. now destruct cur.
  - destruct (Ascii.eqb c Csv.LF).
    + eauto.
    + destruct (IH (cur +:+ String c EmptyString)) as (more & rest & ->).
      * now destruct cur.
      * exists (String c more), rest. now rewrite append_assoc.
Qed.

Lemma read_records_lines (s : string) :
  forall r0 cur r,
    parse_chars r0 cur = Some r ->
    Csv.read_records r0 (Csv.lines_from cur s) = read_text r (negb (is_empty cur)) s.
Proof.
  induction s as [|c s IH]; intros r0 cur r Hcur.
  - cbn [Csv.lines_from read_text]. destruct cur as [|c cur].
    + cbn in Hcur. now injection Hcur as <-.
    + cbn [is_empty negb Csv.read_records]. rewrite parse_line_chars, Hcur.
      unfold end_line. destruct (Csv.parse_process_char r Csv.EOL) as [r'|]; auto.
  - cbn [Csv.lines_from read_text].
    pose proof (parse_chars_app r0 cur (String c EmptyString)) as Happ.
    rewrite Hcur in Happ. cbn [parse_chars] in Happ.
    destruct (Csv.parse_process_char r (Csv.Char c)) as [r1|] eqn:Hstep.
    + destruct (Ascii.eqb c Csv.LF).
      * cbn [Csv.read_records]. rewrite parse_line_chars, Happ. unfold end_line.
        destruct (Csv.parse_process_char r1 Csv.EOL) as [r2|]; auto.
        destruct (Csv.state_eqb (Csv.state r2) Csv.START_RECORD).
        -- now rewrite (IH Csv.parse_reset EmptyString Csv.parse_reset).
        -- now rewrite (IH r2 EmptyString r2).
      * rewrite (IH r0 _ r1 Happ). now destruct cur.
    + assert (Hfail : forall more rest,
        Csv.read_records r0 ((cur +:+ String c EmptyString +:+ more) :: rest) = None).
      { intros more rest. cbn [Csv.read_records].
        rewrite parse_line_chars, <- append_assoc, parse_chars_app, Happ. reflexivity. }
      destruct (Ascii.eqb c Csv.LF).
      * rewrite <- (append_nil_r (cur +:+ String c EmptyString)), append_assoc.
        apply Hfail.
      * destruct (lines_from_open (cur +:+ String c EmptyString) s)
          as (more & rest & ->); [now destruct cur|].
        rewrite append_assoc. apply Hfail.
Qed.

Lemma reader_read_text (text : string) :
  Csv.reader text = read_text Csv.parse_reset false text.
Proof.
  unfold Csv.reader, Csv.lines.
  now rewrite (read_records_lines text Csv.parse_reset EmptyString Csv.parse_reset).
Qed.

Lemma special_false (c : ascii) :
  Csv.special c = false ->
  Ascii.eqb c Csv.COMMA = false /\ Ascii.eqb c Csv.DQUOTE = false /\
  Ascii.eqb c Csv.CR = false /\ Ascii.eqb c Csv.LF = false.
Proof.
  unfold Csv.special. rewrite !orb_false_iff. tauto.
Qed.

Lemma read_text_plain (r : Csv.Reader) (o : bool) (c : ascii) (s : string) :
  Ascii.eqb c Csv.LF = false ->
  read_text r o (String c s) =
  match Csv.parse_process_char r (Csv.Char c) with
  | Some r1 => read_text r1 true s
  | None => None
  end.
Proof. intros H. cbn [read_text]. now rewrite H. Qed.

Section Fields.
Import Csv.
Variable fs : list string.

(** One unquoted character inside a field. *)
Lemma step_in_field (fd : string) (c : ascii) :
  special c = false ->
  parse_process_char (Build_Reader IN_FIELD fs fd) (Char c) =
  Some (Build_Reader IN_FIELD fs (fd +:+ String c EmptyString)).
Proof.
  intros H. destruct (special_false c H) as (Hcomma & Hdq & Hcr & Hlf).
  unfold parse_process_char. cbn. now rewrite Hlf, Hcr, Hcomma.
Qed.

(** The first character of an unquoted field. *)
Lemma step_start_plain (st : ParserState) (c : ascii) :
  st = START_RECORD \/ st = START_FIELD ->
  special c = false ->
  parse_process_char (Build_Reader st fs EmptyString) (Char c) =
  Some (Build_Reader IN_FIELD fs (String c EmptyString)).
Proof.
  intros Hst H. destruct (special_false c H) as (Hcomma & Hdq & Hcr & Hlf).
  destruct Hst as [-> | ->]; unfold parse_process_char, in_start_field; cbn;
    now rewrite Hlf, Hcr, Hdq, Hcomma.
Qed.

(** One character inside quotes that is not a quote. *)
Lemma step_in_quoted (fd : string) (c : ascii) :
  Ascii.eqb c DQUOTE = false ->
  parse_process_char (Build_Reader IN_QUOTED_FIELD fs fd) (Char c) =
  Some (Build_Reader IN_QUOTED_FIELD fs (fd +:+ String c EmptyString)).
Proof. intros H. unfold parse_process_char. cbn. now rewrite H. Qed.

Lemma in_field_plain (f : string) :
  has_special f = false ->
  forall fd o rest,
    read_text (Build_Reader IN_FIELD fs fd) o (f +:+ rest) =
    read_text (Build_Reader IN_FIELD fs (fd +:+ f)) (o || negb (is_empty f)) rest.
Proof.
  induction f as [|c f IH]; intros Hf fd o rest.
  - cbn. now rewrite append_nil_r, orb_false_r.
  - cbn [has_special] in Hf. apply orb_false_iff in Hf as [Hc Hf].
    rewrite append_cons, read_text_plain by apply (special_false c Hc).
    rewrite step_in_field by exact Hc. rewrite (IH Hf).
    rewrite append_assoc. cbn. now rewrite orb_true_r.
Qed.

Lemma in_quoted (f : string) :
  forall fd o rest,
    read_text (Build_Reader IN_QUOTED_FIELD fs fd) o (double_quotes f +:+ rest) =
    read_text (Build_Reader IN_QUOTED_FIELD fs (fd +:+ f)) (open_after o f) rest.
Proof.
  induction f as [|c f IH]; intros fd o rest.
  - cbn. now rewrite append_nil_r.
  - cbn [double_quotes open_after].
    replace (fd +:+ String c f) with ((fd +:+ String c EmptyString) +:+ f)
      by now rewrite append_assoc.
    destruct (Ascii.eqb_spec c DQUOTE) as [->|Hdq].
    + rewrite <- IH. reflexivity.
    + apply Ascii.eqb_neq in Hdq. rewrite <- IH. rewrite append_cons.
      cbn [read_text]. rewrite step_in_quoted by exact Hdq.
      destruct (Ascii.eqb c LF); reflexivity.
Qed.
End Fields.

Section Delimiters.
Import Csv.
Variables (fs : list string) (o : bool) (rest : string).

Lemma comma_in_field (fd : string) :
  read_text (Build_Reader IN_FIELD fs fd) o (String COMMA rest) =
  read_text (Build_Reader START_FIELD (fs ++ [fd]) EmptyString) true rest.
Proof. reflexivity. Qed.

Lemma quote_comma_in_quoted (fd : string) :
  read_text (Build_Reader IN_QUOTED_FIELD fs fd) o (String DQUOTE (String COMMA rest)) =
  read_text (Build_Reader START_FIELD (fs ++ [fd]) EmptyString) true rest.
Proof. reflexivity. Qed.

Lemma comma_at_start (st : ParserState) :
  st = START_RECORD \/ st = START_FIELD ->
  read_text (Build_Reader st fs EmptyString) o (String COMMA rest) =
  read_text (Build_Reader START_FIELD (fs ++ [EmptyString]) EmptyString) true rest.
Proof. intros [-> | ->]; reflexivity. Qed.

Lemma quote_at_start (st : ParserState) :
  st = START_RECORD \/ st = START_FIELD ->
  read_text (Build_Reader st fs EmptyString) o (String DQUOTE rest) =
  read_text (Build_Reader IN_QUOTED_FIELD fs EmptyString) true rest.
Proof. intros [-> | ->]; reflexivity. Qed.

Lemma crlf_in_field (fd : string) :
  read_text (Build_Reader IN_FIELD fs fd) o (CRLF +:+ rest) =
  then_records (fs ++ [fd]) (read_text parse_reset false rest).
Proof. reflexivity. Qed.

Lemma quote_crlf_in_quoted (fd : string) :
  read_text (Build_Reader IN_QUOTED_FIELD fs fd) o (String DQUOTE (CRLF +:+ rest)) =
  then_records (fs ++ [fd]) (read_text parse_reset false rest).
Proof. reflexivity. Qed.

Lemma crlf_at_start_field :
  read_text (Build_Reader START_FIELD fs EmptyString) o (CRLF +:+ rest) =
  then_records (fs ++ [EmptyString]) (read_text parse_reset false rest).
Proof. reflexivity. Qed.

Lemma crlf_at_start_record (fd : string) :
  read_text (Build_Reader START_RECORD fs fd) o (CRLF +:+ rest) =
  then_records fs (read_text parse_reset false rest).
Proof. reflexivity. Qed.
End Delimiters.

Section WrittenFields.
Import Csv.

(** A written field and the comma after it. *)
Lemma read_field_comma (f : string) (st : ParserState) (fs : list string)
    (o : bool) (rest : string) :
  st = START_RECORD \/ st = START_FIELD ->
  read_text (Build_Reader st fs EmptyString) o
    (write_field f +:+ String COMMA rest) =
  read_text (Build_Reader START_FIELD (fs ++ [f]) EmptyString) true rest.
Proof.
  intros Hst. unfold write_field. destruct (has_special f) eqn:Hf.
  - rewrite append_cons, append_assoc, quote_at_start by exact Hst.
    rewrite in_quoted. apply quote_comma_in_quoted.
  - destruct f as [|c f].
    + now apply comma_at_start.
    + cbn [has_special] in Hf. apply orb_false_iff in Hf as [Hc Hf].
      rewrite append_cons, read_text_plain by apply (special_false c Hc).
      rewrite step_start_plain by auto.
      rewrite in_field_plain by exact Hf. apply comma_in_field.
Qed.

(** A written field and the line terminator after it. *)
Lemma read_field_crlf (f : string) (st : ParserState) (fs : list string)
    (o : bool) (rest : string) :
  st = START_RECORD \/ st = START_FIELD ->
  (st = START_RECORD -> f <> EmptyString) ->
  read_text (Build_Reader st fs EmptyString) o (write_field f +:+ CRLF +:+ rest) =
  then_records (fs ++ [f]) (read_text parse_reset false rest).
Proof.
  intros Hst Hne. unfold write_field. destruct (has_special f) eqn:Hf.
  - rewrite append_cons, append_assoc, quote_at_start by exact Hst.
    rewrite in_quoted. apply quote_crlf_in_quoted.
  - destruct f as [|c f].
    + destruct Hst as [-> | ->]; [now destruct Hne|]. apply crlf_at_start_field.
    + cbn [has_special] in Hf. apply orb_false_iff in Hf as [Hc Hf].
      rewrite append_cons, read_text_plain by apply (special_false c Hc).
      rewrite step_start_plain by auto.
      rewrite in_field_plain by exact Hf. apply crlf_in_field.
Qed.

(** The fields of a record, joined by commas, and the line terminator. *)
Lemma read_joined_fields (fields : list string) :
  forall st fs o rest,
    st = START_RECORD \/ st = START_FIELD ->
    fields <> [] ->
    (st = START_RECORD -> fields <> [EmptyString]) ->
    read_text (Build_Reader st fs EmptyString) o
      (Str.join (String COMMA EmptyString) (map write_field fields) +:+ CRLF +:+ rest) =
    then_records (fs ++ fields) (read_text parse_reset false rest).
Proof.
  induction fields as [|f fields IH]; intros st fs o rest Hst Hne Hspecial;
    [congruence|].
  destruct fields as [|f' fields].
  - cbn [map Str.join]. apply read_field_crlf; auto.
    intros -> ->. now apply Hspecial.
  - change (Str.join (String COMMA EmptyString) (map write_field (f :: f' :: fields)))
      with (write_field f +:+ String COMMA EmptyString +:+
            Str.join (String COMMA EmptyString) (map write_field (f' :: fields))).
    rewrite !append_assoc. rewrite append_cons.
    change (EmptyString +:+ ?x) with x.
    rewrite read_field_comma by exact Hst.
    rewrite IH; auto; try discriminate.
    now rewrite <- app_assoc.
Qed.

Lemma write_field_empty (f : string) : write_field f = EmptyString -> f = EmptyString.
Proof.
  unfold write_field. destruct (has_special f); [discriminate | auto].
Qed.

Lemma join_fields_empty (fields : list string) :
  Str.join (String COMMA EmptyString) (map write_field fields) = EmptyString ->
  fields = [] \/ fields = [EmptyString].
Proof.
  destruct fields as [|f [|f' fields]]; auto.
  - cbn. intros H. right. now rewrite (write_field_empty f H).
  - change (Str.join (String COMMA EmptyString) (map write_field (f :: f' :: fields)))
      with (write_field f +:+ String COMMA EmptyString +:+
            Str.join (String COMMA EmptyString) (map write_field (f' :: fields))).
    destruct (write_field f); discriminate.
Qed.

(** One written record reads back as its fields. *)
Lemma read_row (fields : list string) (o : bool) (rest : string) :
  read_text parse_reset o (writerow fields +:+ rest) =
  then_records fields (read_text parse_reset false rest).
Proof.
  unfold writerow.
  destruct fields as [|f fields].
  - cbn [map Str.join]. apply (crlf_at_start_record [] o rest EmptyString).
  - destruct (Str.join (String COMMA EmptyString) (map write_field (f :: fields)))
      as [|c rec] eqn:Hjoin.
    + destruct (join_fields_empty _ Hjoin) as [H|H]; [discriminate|].
      injection H as -> ->. reflexivity.
    + rewrite <- Hjoin, append_assoc.
      apply (read_joined_fields (f :: fields) START_RECORD [] o rest);
        [now left | discriminate |].
      intros _ [= -> ->]. cbn in Hjoin. discriminate.
Qed.

(** The round trip: what [writerows] writes, [reader] reads back. *)
Lemma reader_writerows (rows : list (list string)) :
  reader (writerows rows) = Some rows.
Proof.
  rewrite reader_read_text.
  induction rows as [|row rows IH].
  - reflexivity.
  - cbn [writerows]. now rewrite read_row, IH.
Qed.
End WrittenFields.

(** C5. For every list of result rows that is not empty, the CSV that
    [run_extraction] offers for download begins with the header line
    File Name, Folder Path, View Link, Share Link, Direct Download Link,
    Uploaded Date, File ID, and reading it back gives the header and then
    each row with its fields unchanged. *)
Theorem csv_round_trip (rows : list Row) :
  rows <> [] ->
  csv_of rows =
    "File Name,Folder Path,View Link,Share Link,Direct Download Link,Uploaded Date,File ID"
    +:+ Csv.CRLF +:+ Csv.writerows rows /\
  Csv.reader (csv_of rows) = Some (CSV_HEADER :: rows) /\
  length CSV_HEADER = 7 /\
  (forall fuel env st st1 st2 folder_id service,
     extract_folder_id (folder_url env) = Some folder_id ->
     get_drive_service env st = (Done service, st1) ->
     scan_folder_recursive fuel service folder_id EmptyString
       (add_events st1 [StSpinner "Scanning Drive folder recursively..."]) =
       (Done rows, st2) ->
     Forall (fun row => length row = 7) rows /\
     run_extraction fuel env st =
       (Done tt,
        add_events st2
          [StSuccess ("Done. Found " +:+ Str.of_nat (length rows) +:+ " audio files.");
           StDownloadButton "Download CSV" (csv_of rows) "audio_links.csv" "text/csv"])).
Proof.
  intros Hne. split; [reflexivity | split; [|split; [reflexivity|]]].
  - apply (reader_writerows (CSV_HEADER :: rows)).
  - intros fuel env st st1 st2 folder_id service Hextract Hservice Hscan. split.
    + eapply Forall_impl; [exact (scan_rows _ _ _ _ _ _ _ Hscan)|].
      now intros row (item & path & -> & _).
    + rewrite (run_extraction_valid _ _ _ Hextract).
      rewrite (run_scan_done _ _ _ _ _ _ _ _ Hservice Hscan).
      now destruct rows.
Qed.

(** The theorem at two rows, one with a comma in its name. *)
Lemma csv_round_trip_witness :
  let rows := [audio_row (mk_file "1" "intro.mp3") EmptyString;
               audio_row (mk_file "3" "Song, live.MP3") "Albums"] in
  rows <> [] /\
  Csv.reader (csv_of rows) = Some (CSV_HEADER :: rows).
Proof.
  intros rows.
  assert (Hne : rows <> []) by discriminate.
  split; [exact Hne|].
  exact (proj1 (proj2 (csv_round_trip rows Hne))).
Defined.

(* ===================================================================== *)
(** * Part III: further properties of the code *)
(* ===================================================================== *)

(** ** extract_folder_id: what it returns and what it accepts *)

Lemma id_string_app (a b : string) :
  id_string (a +:+ b) = id_string a && id_string b.
Proof.
  induction a as [|c a IH]; simpl; auto. now rewrite IH, andb_assoc.
Qed.

Lemma id_string_char (id pre post : string) (c : ascii) :
  id_string id = true -> id = pre +:+ String c post -> is_id_char c = true.
Proof.
  intros Hid ->. rewrite id_string_app in Hid. simpl in Hid.
  apply andb_true_iff in Hid as [_ Hid]. now apply andb_true_iff in Hid as [Hc _].
Qed.

Lemma captures_at_id_string (L url : string) (i : nat) (id : string) :
  captures_at L url i id -> id_string id = true.
Proof. now intros (pre & post & _ & _ & _ & Hid & _). Qed.

(** X1. Whatever the input, an identifier that [extract_folder_id]
    returns is not empty and is made of letters, digits, underscores and
    hyphens only: no quote, slash, space or other character of the input
    gets into it. *)
Theorem extracted_id_is_well_formed (url id : string) :
  extract_folder_id url = Some id ->
  id <> EmptyString /\ id_string id = true /\
  (forall pre c post, id = pre +:+ String c post -> is_id_char c = true).
Proof.
  intros H. assert (Hid : id_string id = true).
  { revert H. unfold extract_folder_id. rewrite patterns_shape. cbn [extract_with].
    destruct (search_lit_cases "/folders/" url) as [(id1 & -> & (i & H1 & _))|[-> _]];
      [intros [= <-]; eapply captures_at_id_string; eauto|].
    destruct (search_lit_cases "/drive/folders/" url)
      as [(id2 & -> & (i & H2 & _))|[-> _]];
      [intros [= <-]; eapply captures_at_id_string; eauto|].
    destruct (search_lit_cases "id=" url) as [(id3 & -> & (i & H3 & _))|[-> _]];
      [intros [= <-]; eapply captures_at_id_string; eauto|].
    destruct (search_bare_cases url) as [(id4 & -> & (_ & H4 & _))|[-> _]];
      [now intros [= <-] | discriminate]. }
  split; [now apply (extract_folder_id_not_empty url)|].
  split; [exact Hid|].
  intros pre c post Heq. now apply (id_string_char id pre post).
Qed.

(** The theorem at a folder link with a query string. *)
Lemma extracted_id_is_well_formed_witness :
  "1AbC_d-9" <> EmptyString /\ id_string "1AbC_d-9" = true /\
  (forall pre c post, "1AbC_d-9" = pre +:+ String c post -> is_id_char c = true).
Proof.
  apply (extracted_id_is_well_formed
           "https://drive.google.com/drive/folders/1AbC_d-9?usp=sharing").
  reflexivity.
Defined.

(** A literal with a character that no identifier has is not found in
    a string of identifier characters. *)
Lemma no_capture_in_id_string (L s : string) :
  id_string s = true -> id_string L = false -> no_capture L s.
Proof.
  intros Hs HL i id (pre & post & -> & _).
  rewrite !id_string_app, HL in Hs. now rewrite andb_false_r in Hs.
Qed.

(** X2. On a string made of identifier characters only, the extractor
    returns the string itself when it has 25 characters or more, and
    nothing when it is shorter: a short bare identifier is rejected. *)
Theorem bare_identifier_needs_25_characters (s : string) :
  id_string s = true ->
  extract_folder_id s =
  if Nat.leb 25 (String.length s) then Some s else None.
Proof.
  intros Hs. unfold extract_folder_id. rewrite patterns_shape. cbn [extract_with].
  rewrite !no_capture_search by (apply no_capture_in_id_string; auto).
  destruct (Nat.leb_spec 25 (String.length s)) as [Hlen|Hlen].
  - rewrite (bare_id_search s s); auto. repeat split; auto.
  - destruct (search_bare_cases s) as [(id & _ & ([-> | ->] & Hid & Hlen'))|[-> _]];
      auto.
    + lia.
    + rewrite id_string_app in Hs. rewrite Hid in Hs. discriminate.
Qed.

(** The theorem at an identifier of 24 characters. *)
Lemma bare_identifier_needs_25_characters_witness :
  id_string "abcdefghijklmnopqrstuvwx" = true /\
  extract_folder_id "abcdefghijklmnopqrstuvwx" = None.
Proof.
  split; [reflexivity|].
  exact (bare_identifier_needs_25_characters "abcdefghijklmnopqrstuvwx" eq_refl).
Defined.

Lemma append_prefix (a x b y : string) :
  a +:+ x = b +:+ y -> String.length b <= String.length a ->
  exists z, a = b +:+ z.
Proof.
  revert b. induction a as [|c a IH]; intros [|c' b]; simpl; intros Heq Hlen.
  - now exists EmptyString.
  - lia.
  - now exists (String c a).
  - injection Heq as -> Heq. destruct (IH b Heq) as [z ->]; [lia|]. now exists z.
Qed.

(** The occurrence of a literal after [pre] is the leftmost one that an
    identifier follows when [pre] and the literal hold none before it. *)
Lemma leftmost_capture_after (L pre id post : string) :
  no_capture L (pre +:+ L) ->
  id <> EmptyString -> id_string id = true -> starts_with_id_char post = false ->
  leftmost_capture L (pre +:+ L +:+ id +:+ post) id.
Proof.
  intros Hnone Hne Hid Hpost. exists (String.length pre). split.
  - exists pre, post. auto.
  - intros j id' Hj (pre' & post' & Heq & Hlen & Hne' & Hid' & Hpost').
    destruct id' as [|c id']; [congruence|].
    cbn [id_string] in Hid'. apply andb_true_iff in Hid' as [Hc Hid'].
    destruct (append_prefix (pre +:+ L) (id +:+ post)
                (pre' +:+ L +:+ String c EmptyString) (id' +:+ post')) as [z Hz].
    + rewrite !append_assoc. exact Heq.
    + rewrite !length_append. cbn. lia.
    + destruct (id_run_split (String c z)) as (id2 & post2 & Hsplit & Hid2 & Hpost2).
      apply (Hnone j id2). exists pre', post2. repeat split; auto.
      * rewrite Hz, <- Hsplit. now rewrite !append_assoc.
      * intros ->. cbn in Hsplit. subst post2. cbn in Hpost2. congruence.
Qed.

(** X3. A link that holds /folders/ followed by an identifier yields
    that identifier, whatever comes after it, when no earlier /folders/
    with an identifier character after it lies in the text up to there. *)
Theorem folder_link_yields_its_id (pre id post : string) :
  no_capture "/folders/" (pre +:+ "/folders/") ->
  id <> EmptyString -> id_string id = true -> starts_with_id_char post = false ->
  extract_folder_id (pre +:+ "/folders/" +:+ id +:+ post) = Some id.
Proof.
  intros Hnone Hne Hid Hpost.
  unfold extract_folder_id. rewrite patterns_shape. cbn [extract_with].
  now rewrite (leftmost_capture_search _ _ _
                 (leftmost_capture_after "/folders/" pre id post Hnone Hne Hid Hpost)).
Qed.

Lemma no_capture_by_search (L s : string) :
  Re.search (lit_then_id L) s = None -> no_capture L s.
Proof. apply search_lit_None. Qed.

(** The theorem at the usual folder link. *)
Lemma folder_link_yields_its_id_witness :
  extract_folder_id
    ("https://drive.google.com/drive" +:+ "/folders/" +:+ "1AbC_d-9" +:+ "?usp=sharing")
  = Some "1AbC_d-9".
Proof.
  apply (folder_link_yields_its_id "https://drive.google.com/drive" "1AbC_d-9"
           "?usp=sharing").
  - apply no_capture_by_search. reflexivity.
  - discriminate.
  - reflexivity.
  - reflexivity.
Defined.

(** X4. A link without /folders/ that holds id= followed by an
    identifier yields that identifier when no earlier id= with an
    identifier character after it lies in the text up to there. *)
Theorem id_parameter_yields_its_id (pre id post : string) :
  no_capture "/folders/" (pre +:+ "id=" +:+ id +:+ post) ->
  no_capture "id=" (pre +:+ "id=") ->
  id <> EmptyString -> id_string id = true -> starts_with_id_char post = false ->
  extract_folder_id (pre +:+ "id=" +:+ id +:+ post) = Some id.
Proof.
  intros Hfolders Hnone Hne Hid Hpost.
  unfold extract_folder_id. rewrite patterns_shape. cbn [extract_with].
  rewrite (no_capture_search "/folders/") by exact Hfolders.
  rewrite (no_capture_search "/drive/folders/").
  - now rewrite (leftmost_capture_search _ _ _
                   (leftmost_capture_after "id=" pre id post Hnone Hne Hid Hpost)).
  - intros i id' Hc. apply (Hfolders (i + 6) id').
    now apply drive_folders_capture_is_folders_capture.
Qed.

(** The theorem at the usual open link. *)
Lemma id_parameter_yields_its_id_witness :
  extract_folder_id
    ("https://drive.google.com/open?" +:+ "id=" +:+ "1AbC_d-9" +:+ "&authuser=0")
  = Some "1AbC_d-9".
Proof.
  apply (id_parameter_yields_its_id "https://drive.google.com/open?" "1AbC_d-9"
           "&authuser=0").
  - apply no_capture_by_search. reflexivity.
  - apply no_capture_by_search. reflexivity.
  - discriminate.
  - reflexivity.
  - reflexivity.
Defined.

(** ** is_audio_file: only the end of the name counts *)

Lemma lower_app (a b : string) :
  Str.lower (a +:+ b) = Str.lower a +:+ Str.lower b.
Proof. induction a as [|c a IH]; simpl; auto. now rewrite IH. Qed.

Lemma length_lower (s : string) : String.length (Str.lower s) = String.length s.
Proof. induction s as [|c s IH]; simpl; auto. Qed.

(** X5. Whatever is put in front of an audio name, the name stays audio:
    the classification looks at the end of the name only. *)
Theorem audio_name_with_prefix (pre name : string) :
  is_audio_file name = true -> is_audio_file (pre +:+ name) = true.
Proof.
  unfold is_audio_file. rewrite !is_audio_file_in_spec.
  intros (ext & Hin & p & Hp). exists ext. split; auto.
  exists (Str.lower pre +:+ p). now rewrite lower_app, Hp, append_assoc.
Qed.

(** The theorem at a name with several dots. *)
Lemma audio_name_with_prefix_witness :
  is_audio_file ("notes.txt." +:+ "Song.MP3") = true.
Proof. apply (audio_name_with_prefix "notes.txt." "Song.MP3"). reflexivity. Defined.

(** X6. An audio name has at least four characters: nothing shorter
    than the shortest extensions is audio. *)
Theorem audio_name_has_four_characters (name : string) :
  is_audio_file name = true -> 4 <= String.length name.
Proof.
  unfold is_audio_file. rewrite is_audio_file_in_spec.
  intros (ext & Hin & p & Hp).
  rewrite <- length_lower, Hp, length_append.
  assert (4 <= String.length ext); [|lia].
  unfold AUDIO_EXTENSIONS in Hin. simpl in Hin.
  repeat (destruct Hin as [<-|Hin]; [simpl; lia|]). destruct Hin.
Qed.

(** The theorem at an extension without a base name. *)
Lemma audio_name_has_four_characters_witness : 4 <= String.length ".wav".
Proof. apply (audio_name_has_four_characters ".wav"). reflexivity. Defined.

(** ** list_children: when it returns, and when it does not *)

Lemma list_children_loop_done (service : Drive) (folder_id : string) (fuel : nat) :
  forall acc tok st items st',
    list_children_loop fuel service folder_id acc tok st = (Done items, st') ->
    exists rs,
      page_walk (service folder_id) tok rs /\ length rs <= fuel /\
      items = acc ++ merged rs /\
      st' = add_events st (requests folder_id tok rs).
Proof.
  induction fuel as [|fuel IH]; intros acc tok st items st' Hrun; [discriminate|].
  cbn [list_children_loop] in Hrun. rewrite bind_run, files_list_run in Hrun.
  destruct (truthy (nextPageToken (service folder_id tok))) eqn:Htok;
    cbn [negb] in Hrun.
  - apply IH in Hrun as (rs & Hwalk & Hlen & -> & ->).
    exists (service folder_id tok :: rs). repeat split.
    + now apply walk_next.
    + simpl. lia.
    + unfold merged. cbn. now rewrite app_assoc.
    + now rewrite add_events_app.
  - injection Hrun as <- <-. exists [service folder_id tok]. repeat split.
    + now apply walk_last.
    + simpl. lia.
    + unfold merged. cbn. now rewrite app_nil_r.
Qed.

(** X7. [list_children] never returns a partial listing: when it
    returns, the pages it fetched run from the first page to a page
    without a usable token, the result is all their items, and it sent
    one request per page. *)
Theorem list_children_returns_whole_listing (service : Drive) (folder_id : string)
    (fuel : nat) (st st' : AppState) (items : list DriveItem) :
  list_children fuel service folder_id st = (Done items, st') ->
  exists rs,
    page_walk (service folder_id) None rs /\ length rs <= fuel /\
    items = merged rs /\
    st' = add_events st (requests folder_id None rs) /\
    truthy (nextPageToken (List.last rs (service folder_id None))) = false.
Proof.
  intros Hrun. apply list_children_loop_done in Hrun as (rs & Hwalk & Hlen & -> & ->).
  exists rs. repeat split; auto.
  clear Hlen. generalize (service folder_id None).
  induction Hwalk as [tok Hlast | tok rs Hnext Hwalk IH]; intros d; auto.
  destruct rs as [|r rs]; [inversion Hwalk|]. apply (IH d).
Qed.

(** The theorem at the listing in three pages. *)
Lemma list_children_returns_whole_listing_witness :
  exists rs,
    page_walk (three_pages "root") None rs /\ length rs <= 3 /\
    [mk_file "1" "a.mp3"; mk_file "2" "b.txt"; mk_file "3" "c.wav";
     mk_file "4" "d.ogg"] = merged rs /\
    add_events st0 [FilesList "root" None; FilesList "root" (Some "t1");
                    FilesList "root" (Some "t2")] =
      add_events st0 (requests "root" None rs) /\
    truthy (nextPageToken (List.last rs (three_pages "root" None))) = false.
Proof.
  apply (list_children_returns_whole_listing three_pages "root" 3 st0).
  reflexivity.
Defined.

Lemma list_children_loop_endless (service : Drive) (folder_id : string) :
  (forall tok, truthy (nextPageToken (service folder_id tok)) = true) ->
  forall fuel acc tok st,
    exists st',
      list_children_loop fuel service folder_id acc tok st = (OutOfFuel, st') /\
      length (events st') = length (events st) + fuel.
Proof.
  intros Hloop. induction fuel as [|fuel IH]; intros acc tok st.
  - exists st. split; [reflexivity | lia].
  - cbn [list_children_loop]. rewrite bind_run, files_list_run, Hloop. cbn [negb].
    destruct (IH (acc ++ default [] (files (service folder_id tok)))
                (nextPageToken (service folder_id tok))
                (add_events st [FilesList folder_id tok])) as (st' & -> & Hlen).
    exists st'. split; auto. rewrite Hlen. cbn. rewrite length_app. simpl. lia.
Qed.

(** X8. The listing loop has no bound of its own: when every page of a
    folder carries a token, [list_children] never returns and keeps
    sending requests, one per step. *)
Theorem list_children_endless_tokens (service : Drive) (folder_id : string) :
  (forall tok, truthy (nextPageToken (service folder_id tok)) = true) ->
  forall fuel st,
    result (list_children fuel service folder_id) st = OutOfFuel /\
    length (emitted (list_children fuel service folder_id) st) = fuel.
Proof.
  intros Hloop fuel st. unfold list_children, result, emitted.
  destruct (list_children_loop_endless service folder_id Hloop fuel [] None st)
    as (st' & -> & Hlen).
  split; auto. cbn [snd]. rewrite length_drop. lia.
Qed.

(** The theorem at a listing whose pages all carry the token "next". *)
Lemma list_children_endless_tokens_witness :
  result (list_children 7 endless_pages "root") st0 = OutOfFuel /\
  length (emitted (list_children 7 endless_pages "root") st0) = 7.
Proof.
  apply (list_children_endless_tokens endless_pages "root"). reflexivity.
Defined.

(** ** scan_folder_recursive: requests, cycles and paths *)

Lemma scan_unfolds_run (fs : gmap string (list DriveItem)) (folder_id : string)
    (es : list Entry) :
  unfolds fs folder_id es ->
  forall names fuel st, list_max (map depth es) < fuel ->
    scan_folder_recursive fuel (tree_service fs) folder_id (folder_path names) st =
    (Done (flat_map (rows_of folder_path names) es),
     add_events st (folder_requests folder_id es)).
Proof.
  intros H.
  induction H using unfolds_mind with
    (P0 := fun items es =>
       forall names fuel acc st, list_max (map depth es) <= fuel ->
         scan_items (scan_folder_recursive fuel (tree_service fs))
           (folder_path names) items acc st =
         (Done (acc ++ flat_map (rows_of folder_path names) es),
          add_events st (flat_map entry_requests es))).
  - intros names [|fuel] st Hfuel; [lia|].
    cbn [scan_folder_recursive]. rewrite bind_run, list_children_tree.
    assert (Hle : list_max (map depth es) <= fuel) by lia.
    rewrite (IHunfolds names fuel [] _ Hle).
    now rewrite add_events_app.
  - intros names fuel acc st _. cbn. unfold add_events.
    rewrite !app_nil_r. now destruct st.
  - intros names fuel acc st Hfuel. cbn [scan_items]. rewrite H.
    rewrite depth_cons in Hfuel.
    assert (Hle : list_max (map depth es) <= fuel) by lia.
    cbn [flat_map rows_of entry_requests app].
    destruct (is_audio_file (get_str item "name")) eqn:Haudio.
    + rewrite (IHunfolds names fuel _ st Hle). now rewrite <- app_assoc.
    + now rewrite (IHunfolds names fuel _ st Hle).
  - intros names fuel acc st Hfuel. cbn [scan_items]. rewrite H.
    rewrite depth_cons, depth_folder in Hfuel.
    destruct fuel as [|fuel]; [lia|].
    assert (Hsub : list_max (map depth sub) < S fuel) by lia.
    assert (Hle : list_max (map depth es) <= S fuel) by lia.
    rewrite bind_run, new_path_folder_path.
    rewrite (IHunfolds (names ++ [get_str item "name"]) (S fuel) st Hsub).
    rewrite (IHunfolds0 names (S fuel) _ _ Hle).
    rewrite add_events_app. cbn [flat_map]. rewrite rows_of_folder.
    now rewrite <- app_assoc.
Qed.

(** X9. On an acyclic hierarchy the scan sends one listing request for
    the root and one for each folder found below it, in the order of
    the depth-first walk and never for a file, and it leaves the cached
    client as it is. *)
Theorem scan_requests_each_folder_once (fs : gmap string (list DriveItem))
    (root : string) :
  acyclic fs ->
  exists es,
    unfolds fs root es /\
    forall fuel st, list_max (map depth es) < fuel ->
      emitted (scan_folder_recursive fuel (tree_service fs) root EmptyString) st =
        folder_requests root es /\
      service_cached
        (snd (scan_folder_recursive fuel (tree_service fs) root EmptyString st)) =
        service_cached st.
Proof.
  intros Hacyclic. destruct (acyclic_unfolds fs Hacyclic root) as [es Hes].
  exists es. split; [exact Hes|]. intros fuel st Hfuel.
  pose proof (scan_unfolds_run fs root es Hes [] fuel st Hfuel) as Hrun.
  change (folder_path []) with EmptyString in Hrun at 1.
  split.
  - apply emitted_events. now rewrite Hrun.
  - now rewrite Hrun.
Qed.

(** The theorem at the three-level sample. *)
Lemma scan_requests_each_folder_once_witness :
  acyclic sample_tree /\
  exists es,
    unfolds sample_tree "root" es /\
    forall fuel st, list_max (map depth es) < fuel ->
      emitted (scan_folder_recursive fuel (tree_service sample_tree) "root"
                 EmptyString) st =
        folder_requests "root" es /\
      service_cached
        (snd (scan_folder_recursive fuel (tree_service sample_tree) "root"
                EmptyString st)) =
        service_cached st.
Proof.
  split; [exact sample_tree_acyclic|].
  exact (scan_requests_each_folder_once sample_tree "root" sample_tree_acyclic).
Defined.

(** The requests of the three-level sample. *)
Example scan_sample_tree_requests (st : AppState) :
  emitted (scan_folder_recursive 3 (tree_service sample_tree) "root" EmptyString) st =
  [FilesList "root" None; FilesList "A" None; FilesList "B" None].
Proof.
  pose proof (scan_unfolds_run _ _ _ sample_tree_unfolds [] 3 st) as Hrun.
  change (folder_path []) with EmptyString in Hrun at 1.
  apply emitted_events. rewrite Hrun; [reflexivity | vm_compute; lia].
Qed.

Lemma scan_items_never_returns (recur : string -> string -> M (list Row))
    (path : string) (items : list DriveItem) (item : DriveItem) :
  In item items -> is_folder item = true ->
  (forall p st rows st', recur (get_str item "id") p st <> (Done rows, st')) ->
  forall acc st rows st',
    scan_items recur path items acc st <> (Done rows, st').
Proof.
  intros Hin Hf Hrec. induction items as [|it items IH]; [destruct Hin|].
  intros acc st rows st' Hrun. cbn [scan_items] in Hrun.
  destruct Hin as [->|Hin].
  - rewrite Hf in Hrun.
    apply bind_done_inv in Hrun as (sub & st1 & Hsub & _).
    now apply Hrec in Hsub.
  - destruct (is_folder it).
    + apply bind_done_inv in Hrun as (sub & st1 & _ & Hrun).
      now apply (IH Hin) in Hrun.
    + destruct (is_audio_file (get_str it "name")); now apply (IH Hin) in Hrun.
Qed.

(** X10. The scan has no guard against cycles: started in a set of
    folders of which each lists a folder of the set again, it never
    returns. *)
Theorem scan_never_returns_on_a_cycle (fs : gmap string (list DriveItem))
    (cyclic : string -> Prop) :
  (forall folder_id, cyclic folder_id ->
     exists item, In item (children fs folder_id) /\ is_folder item = true /\
                  cyclic (get_str item "id")) ->
  forall fuel folder_id path st rows,
    cyclic folder_id ->
    result (scan_folder_recursive fuel (tree_service fs) folder_id path) st <>
    Done rows.
Proof.
  intros Hcycle.
  assert (H : forall fuel folder_id path st rows st',
    cyclic folder_id ->
    scan_folder_recursive fuel (tree_service fs) folder_id path st <> (Done rows, st')).
  { induction fuel as [|fuel IH]; intros folder_id path st rows st' Hin Hrun;
      [discriminate|].
    cbn [scan_folder_recursive] in Hrun.
    rewrite bind_run, list_children_tree in Hrun.
    destruct (Hcycle folder_id Hin) as (item & Hitem & Hf & Hnext).
    revert Hrun. apply (scan_items_never_returns _ _ _ item Hitem Hf).
    intros p st1 rows1 st1'. now apply IH. }
  intros fuel folder_id path st rows Hin Hres. unfold result in Hres.
  destruct (scan_folder_recursive fuel (tree_service fs) folder_id path st)
    as [o st'] eqn:Hrun.
  cbn in Hres. subst o. now apply H in Hrun.
Qed.

(** The theorem at a folder that lists itself after an audio file. *)
Lemma scan_never_returns_on_a_cycle_witness :
  In (mk_folder "loop" "again") (children self_listing_tree "loop") /\
  result (scan_folder_recursive 9 (tree_service self_listing_tree) "loop"
            EmptyString) st0 <>
  Done [audio_row (mk_file "1" "a.mp3") EmptyString].
Proof.
  split; [right; left; reflexivity|].
  apply (scan_never_returns_on_a_cycle self_listing_tree (fun f => f = "loop")).
  - intros folder_id ->. exists (mk_folder "loop" "again").
    split; [right; left; reflexivity | split; reflexivity].
  - reflexivity.
Defined.

Lemma under_path_trans (path name p : string) :
  under_path (path +:+ "/" +:+ name) p -> under_path path p.
Proof.
  intros [-> | [rest ->]]; right.
  - now exists name.
  - exists (name +:+ "/" +:+ rest). now rewrite !append_assoc.
Qed.

Lemma scan_items_under (recur : string -> string -> M (list Row)) (path : string) :
  path <> EmptyString ->
  (forall folder_id p st rows st',
     p <> EmptyString -> recur folder_id p st = (Done rows, st') ->
     Forall (row_under p) rows) ->
  forall items acc st rows st',
    Forall (row_under path) acc ->
    scan_items recur path items acc st = (Done rows, st') ->
    Forall (row_under path) rows.
Proof.
  intros Hpath Hrec. induction items as [|item items IH]; intros acc st rows st' Hacc Hrun.
  - cbn in Hrun. injection Hrun as <- <-. exact Hacc.
  - cbn [scan_items] in Hrun. destruct (is_folder item).
    + apply bind_done_inv in Hrun as (sub & st1 & Hsub & Hrun).
      rewrite new_path_not_empty in Hsub by exact Hpath.
      apply Hrec in Hsub; [|now destruct path].
      refine (IH _ _ _ _ (Forall_app_2 _ _ _ Hacc _) Hrun).
      eapply Forall_impl; [exact Hsub|].
      intros row (it & p & -> & Hp). exists it, p. split; auto.
      now apply (under_path_trans path (get_str item "name")).
    + destruct (is_audio_file (get_str item "name")).
      * refine (IH _ _ _ _ (Forall_app_2 _ _ _ Hacc _) Hrun).
        constructor; [|constructor]. exists item, path. split; auto. now left.
      * apply (IH _ _ _ _ Hacc Hrun).
Qed.

Lemma scan_under (service : Drive) (fuel : nat) :
  forall folder_id path st rows st',
    path <> EmptyString ->
    scan_folder_recursive fuel service folder_id path st = (Done rows, st') ->
    Forall (row_under path) rows.
Proof.
  induction fuel as [|fuel IH]; intros folder_id path st rows st' Hpath Hrun.
  - discriminate.
  - cbn [scan_folder_recursive] in Hrun.
    apply bind_done_inv in Hrun as (items & st1 & _ & Hrun).
    apply (scan_items_under _ path Hpath IH items [] st1 rows st'); auto.
Qed.

(** X11. A scan started with a path that is not empty keeps every row
    under it: the Folder Path of each row is that path, or that path,
    a slash and the names of the folders below. *)
Theorem scan_rows_stay_under_path (service : Drive) (fuel : nat)
    (folder_id path : string) (st st' : AppState) (rows : list Row) (row : Row) :
  path <> EmptyString ->
  scan_folder_recursive fuel service folder_id path st = (Done rows, st') ->
  In row rows ->
  under_path path (nth 1 row EmptyString).
Proof.
  intros Hpath Hrun Hin.
  pose proof (scan_under _ _ _ _ _ _ _ Hpath Hrun) as Hall.
  rewrite Forall_forall in Hall.
  destruct (Hall row) as (item & p & -> & Hp); [now apply list_elem_of_In|].
  exact Hp.
Qed.

(** The theorem at the folder Albums of the sample, scanned under
    "Music": the row of the file in Live. *)
Lemma scan_rows_stay_under_path_witness :
  under_path "Music" "Music/Live".
Proof.
  apply (scan_rows_stay_under_path (tree_service sample_tree) 2 "A" "Music" st0
           (snd (scan_folder_recursive 2 (tree_service sample_tree) "A" "Music" st0))
           [audio_row (mk_file "3" "Song.MP3") "Music";
            audio_row (mk_file "5" "set.flac") "Music/Live"]
           (audio_row (mk_file "5" "set.flac") "Music/Live")).
  - discriminate.
  - vm_compute. reflexivity.
  - right. left. reflexivity.
Defined.

(** X12. Whatever the backend answers and however long it runs, the
    scan shows nothing to the user and builds no client: every event it
    adds is a listing request, and the cached client stays as it is. *)
Theorem scan_only_sends_requests (service : Drive) (fuel : nat)
    (folder_id path : string) (st : AppState) :
  let st' := snd (scan_folder_recursive fuel service folder_id path st) in
  service_cached st' = service_cached st /\
  events st' = events st ++ emitted (scan_folder_recursive fuel service folder_id path) st /\
  Forall (fun e => is_request e = true)
    (emitted (scan_folder_recursive fuel service folder_id path) st).
Proof.
  intros st'.
  destruct (scan_requests_only service fuel folder_id path st) as (Hc & evs & Hev & Hreq).
  fold st' in Hc, Hev. rewrite (emitted_events _ _ _ Hev). auto.
Qed.

(** ** get_drive_service and run_extraction: the client and the whole run *)

(** X13. The client is built once: a call of [get_drive_service] that
    returns leaves the client cached, adds the build event only when it
    was not cached before, and the next call returns the same client
    without any event. *)
Theorem client_is_built_once (env : Env) (st st1 : AppState) (service : Drive) :
  get_drive_service env st = (Done service, st1) ->
  service_cached st1 = true /\
  events st1 = events st ++ build_events st /\
  get_drive_service env st1 = (Done service, st1).
Proof.
  intros H. unfold build_events.
  destruct (get_drive_service_cases env st)
    as [[Hc E]|[(Hc & Hs & E)|(Hc & Hs & E)]]; rewrite E in H; try discriminate;
    injection H as <- <-; rewrite Hc.
  - rewrite app_nil_r. unfold get_drive_service. now rewrite Hc.
  - repeat split; reflexivity.
Qed.

(** The theorem at a first call with the secret present. *)
Lemma client_is_built_once_witness :
  let st1 := {| service_cached := true; events := [BuildService] |} in
  service_cached st1 = true /\
  events st1 = events st0 ++ build_events st0 /\
  get_drive_service env_sample st1 = (Done (drive env_sample), st1).
Proof.
  intros st1.
  apply (client_is_built_once env_sample st0 st1 (drive env_sample)). reflexivity.
Defined.

(** X14. With a folder reference that is found but without the secret
    and without a cached client, [run_extraction] shows the missing
    secret and halts there: no spinner, no listing request, no result,
    and nothing is cached, so the next run checks the secret again. *)
Theorem missing_secret_halts_the_run (fuel : nat) (env : Env) (st : AppState)
    (folder_id : string) :
  extract_folder_id (folder_url env) = Some folder_id ->
  service_cached st = false ->
  secret_present env = false ->
  run_extraction fuel env st =
  (Stopped,
   add_events st [StError "Missing Streamlit secret: gcp_service_account"]).
Proof.
  intros Hextract Hc Hs. rewrite (run_extraction_valid _ _ _ Hextract).
  unfold run_scan. rewrite bind_run. unfold get_drive_service. now rewrite Hc, Hs.
Qed.

(** The theorem at the sample without its secret. *)
Lemma missing_secret_halts_the_run_witness :
  run_extraction 5 env_no_secret st0 =
  (Stopped,
   add_events st0 [StError "Missing Streamlit secret: gcp_service_account"]).
Proof.
  apply (missing_secret_halts_the_run 5 env_no_secret st0 "root"); reflexivity.
Defined.

Lemma run_scan_cached (fuel : nat) (env : Env) (folder_id : string) (st : AppState) :
  service_cached st = true ->
  run_scan fuel env folder_id st =
  (_ ← emit (StSpinner "Scanning Drive folder recursively...");
   results ← scan_folder_recursive fuel (drive env) folder_id EmptyString;
   _ ← emit (StSuccess ("Done. Found " +:+ Str.of_nat (length results)
                        +:+ " audio files."));
   match results with
   | [] => emit (StWarning
       "No audio files found, or the folder isn't shared with the service account.")
   | _ :: _ =>
       emit (StDownloadButton "Download CSV" (csv_of results)
               "audio_links.csv" "text/csv")
   end) st.
Proof.
  intros Hc. unfold run_scan. rewrite bind_run. unfold get_drive_service at 1.
  now rewrite Hc.
Qed.

Lemma not_build_app (a b : list Event) :
  Forall (fun e => e <> BuildService) a ->
  Forall (fun e => e <> BuildService) b ->
  Forall (fun e => e <> BuildService) (a ++ b).
Proof. apply Forall_app_2. Qed.

Lemma requests_not_build (evs : list Event) :
  Forall (fun e => is_request e = true) evs ->
  Forall (fun e => e <> BuildService) evs.
Proof. intros H. eapply Forall_impl; [exact H|]. intros e He ->. discriminate. Qed.

Lemma run_scan_cached_events (fuel : nat) (env : Env) (folder_id : string)
    (st : AppState) :
  service_cached st = true ->
  service_cached (snd (run_scan fuel env folder_id st)) = true /\
  exists evs,
    events (snd (run_scan fuel env folder_id st)) = events st ++ evs /\
    Forall (fun e => e <> BuildService) evs.
Proof.
  intros Hc. rewrite (run_scan_cached _ _ _ _ Hc).
  rewrite bind_run, emit_run, bind_run.
  pose proof (scan_requests_only (drive env) fuel folder_id EmptyString
    (add_events st [StSpinner "Scanning Drive folder recursively..."]))
    as (Hc2 & evs2 & Hev2 & Hreq).
  apply requests_not_build in Hreq.
  destruct (scan_folder_recursive fuel (drive env) folder_id EmptyString
              (add_events st [StSpinner "Scanning Drive folder recursively..."]))
    as [[rows| |] st2]; cbn [snd] in *.
  - rewrite bind_run, emit_run.
    destruct rows; rewrite emit_run; cbn [snd add_events service_cached events];
      (split; [now rewrite Hc2|]); rewrite Hev2; cbn [add_events events];
      eexists; (split; [rewrite <- !app_assoc; reflexivity|]);
      repeat apply not_build_app; auto; repeat constructor; discriminate.
  - split; [now rewrite Hc2|]. rewrite Hev2. cbn [add_events events].
    eexists. split; [rewrite <- !app_assoc; reflexivity|].
    repeat apply not_build_app; auto; repeat constructor; discriminate.
  - split; [now rewrite Hc2|]. rewrite Hev2. cbn [add_events events].
    eexists. split; [rewrite <- !app_assoc; reflexivity|].
    repeat apply not_build_app; auto; repeat constructor; discriminate.
Qed.

(** X15. Once the client is cached, a run neither builds it again nor
    looks at the secret: it does the same with and without the secret,
    adds no build event, and leaves the client cached. *)
Theorem cached_client_is_reused (fuel : nat) (env env' : Env) (st : AppState) :
  service_cached st = true ->
  folder_url env' = folder_url env ->
  drive env' = drive env ->
  run_extraction fuel env' st = run_extraction fuel env st /\
  service_cached (snd (run_extraction fuel env st)) = true /\
  Forall (fun e => e <> BuildService) (emitted (run_extraction fuel env) st).
Proof.
  intros Hc Hurl Hdrive.
  destruct (extract_folder_id (folder_url env)) as [folder_id|] eqn:Hextract.
  - rewrite (run_extraction_valid fuel env folder_id Hextract).
    rewrite (run_extraction_valid fuel env' folder_id) by now rewrite Hurl.
    rewrite !(run_scan_cached _ _ _ _ Hc), Hdrive.
    split; [reflexivity|].
    rewrite <- (run_scan_cached _ _ _ _ Hc).
    destruct (run_scan_cached_events fuel env folder_id st Hc) as (Hc' & evs & Hev & Hnb).
    split; [exact Hc'|]. now rewrite (emitted_events _ _ _ Hev).
  - rewrite (run_extraction_invalid fuel env st Hextract).
    rewrite (run_extraction_invalid fuel env' st) by now rewrite Hurl.
    split; [reflexivity|]. split; [exact Hc|].
    rewrite (emitted_events _ _ [StError "Invalid folder URL / ID"]).
    + repeat constructor. discriminate.
    + rewrite (run_extraction_invalid fuel env st Hextract). reflexivity.
Qed.

(** The theorem at a second run of the sample, after the secret is gone. *)
Lemma cached_client_is_reused_witness :
  let st1 := {| service_cached := true; events := [BuildService] |} in
  run_extraction 3 env_no_secret st1 = run_extraction 3 env_sample st1 /\
  service_cached (snd (run_extraction 3 env_sample st1)) = true /\
  Forall (fun e => e <> BuildService) (emitted (run_extraction 3 env_sample) st1).
Proof.
  intros st1.
  apply (cached_client_is_reused 3 env_sample env_no_secret st1); reflexivity.
Defined.

Lemma get_drive_service_available (env : Env) (st : AppState) :
  service_cached st = true \/ secret_present env = true ->
  get_drive_service env st =
  (Done (drive env),
   {| service_cached := true; events := events st ++ build_events st |}).
Proof.
  intros H. unfold get_drive_service, build_events.
  destruct (service_cached st) eqn:Hc.
  - rewrite app_nil_r. destruct st. cbn in *. now subst.
  - destruct H as [H|H]; [discriminate|]. now rewrite H.
Qed.

Lemma run_on_unfolded (fs : gmap string (list DriveItem)) (root : string)
    (env : Env) (es : list Entry) :
  unfolds fs root es ->
  drive env = tree_service fs ->
  extract_folder_id (folder_url env) = Some root ->
  forall fuel st,
    list_max (map depth es) < fuel ->
    service_cached st = true \/ secret_present env = true ->
    let rows := flat_map (rows_of folder_path []) es in
    result (run_extraction fuel env) st = Done tt /\
    emitted (run_extraction fuel env) st =
      build_events st ++
      [StSpinner "Scanning Drive folder recursively..."] ++
      folder_requests root es ++
      [StSuccess ("Done. Found " +:+ Str.of_nat (length rows) +:+ " audio files.");
       match rows with
       | [] => StWarning
           "No audio files found, or the folder isn't shared with the service account."
       | _ :: _ => StDownloadButton "Download CSV" (csv_of rows)
                     "audio_links.csv" "text/csv"
       end] /\
    service_cached (snd (run_extraction fuel env st)) = true /\
    Csv.reader (csv_of rows) = Some (CSV_HEADER :: rows).
Proof.
  intros Hes Hdrive Hextract fuel st Hfuel Havail rows.
  pose proof (get_drive_service_available env st Havail) as Hservice.
  rewrite Hdrive in Hservice.
  set (st1 := {| service_cached := true; events := events st ++ build_events st |}) in *.
  pose proof (scan_unfolds_run fs root es Hes [] fuel
                (add_events st1 [StSpinner "Scanning Drive folder recursively..."])
                Hfuel) as Hscan.
  change (folder_path []) with EmptyString in Hscan at 1. fold rows in Hscan.
  pose proof (run_scan_done _ _ _ _ _ _ _ _ Hservice Hscan) as Hrun.
  rewrite (run_extraction_valid _ _ _ Hextract).
  split; [|split; [|split]].
  - unfold result. now rewrite Hrun.
  - apply emitted_events. rewrite Hrun. cbn [snd add_events events st1].
    now rewrite <- !app_assoc.
  - now rewrite Hrun.
  - apply (reader_writerows (CSV_HEADER :: rows)).
Qed.

(** X16. A whole run on an acyclic hierarchy, with the client cached or
    the secret present: it returns; its events are the build of the
    client when it was not cached, the spinner, one listing request per
    folder, the number of rows found, and then the warning when there is
    no audio file or else the download button; the CSV of the button
    reads back as the header and the rows of the audio files of the
    hierarchy. *)
Theorem run_on_acyclic_hierarchy (fs : gmap string (list DriveItem)) (root : string)
    (env : Env) :
  acyclic fs ->
  drive env = tree_service fs ->
  extract_folder_id (folder_url env) = Some root ->
  exists es,
    unfolds fs root es /\
    forall fuel st,
      list_max (map depth es) < fuel ->
      service_cached st = true \/ secret_present env = true ->
      let rows := flat_map (rows_of folder_path []) es in
      result (run_extraction fuel env) st = Done tt /\
      emitted (run_extraction fuel env) st =
        build_events st ++
        [StSpinner "Scanning Drive folder recursively..."] ++
        folder_requests root es ++
        [StSuccess ("Done. Found " +:+ Str.of_nat (length rows) +:+ " audio files.");
         match rows with
         | [] => StWarning
             "No audio files found, or the folder isn't shared with the service account."
         | _ :: _ => StDownloadButton "Download CSV" (csv_of rows)
                       "audio_links.csv" "text/csv"
         end] /\
      service_cached (snd (run_extraction fuel env st)) = true /\
      Csv.reader (csv_of rows) = Some (CSV_HEADER :: rows).
Proof.
  intros Hacyclic Hdrive Hextract.
  destruct (acyclic_unfolds fs Hacyclic root) as [es Hes].
  exists es. split; [exact Hes|].
  exact (run_on_unfolded fs root env es Hes Hdrive Hextract).
Qed.

(** The theorem at the three-level sample. *)
Lemma run_on_acyclic_hierarchy_witness :
  exists es,
    unfolds sample_tree "root" es /\
    forall fuel st,
      list_max (map depth es) < fuel ->
      service_cached st = true \/ secret_present env_sample = true ->
      let rows := flat_map (rows_of folder_path []) es in
      result (run_extraction fuel env_sample) st = Done tt /\
      emitted (run_extraction fuel env_sample) st =
        build_events st ++
        [StSpinner "Scanning Drive folder recursively..."] ++
        folder_requests "root" es ++
        [StSuccess ("Done. Found " +:+ Str.of_nat (length rows) +:+ " audio files.");
         match rows with
         | [] => StWarning
             "No audio files found, or the folder isn't shared with the service account."
         | _ :: _ => StDownloadButton "Download CSV" (csv_of rows)
                       "audio_links.csv" "text/csv"
         end] /\
      service_cached (snd (run_extraction fuel env_sample st)) = true /\
      Csv.reader (csv_of rows) = Some (CSV_HEADER :: rows).
Proof.
  apply (run_on_acyclic_hierarchy sample_tree "root" env_sample).
  - exact sample_tree_acyclic.
  - reflexivity.
  - reflexivity.
Defined.

(** The first run of the sample, event by event. *)
Example run_sample (st : AppState) :
  service_cached st = false ->
  emitted (run_extraction 3 env_sample) st =
  [BuildService; StSpinner "Scanning Drive folder recursively...";
   FilesList "root" None; FilesList "A" None; FilesList "B" None;
   StSuccess "Done. Found 3 audio files.";
   StDownloadButton "Download CSV"
     (csv_of [audio_row (mk_file "1" "intro.mp3") EmptyString;
              audio_row (mk_file "3" "Song.MP3") "Albums";
              audio_row (mk_file "5" "set.flac") "Albums/Live"])
     "audio_links.csv" "text/csv"].
Proof.
  intros Hc.
  destruct (run_on_unfolded sample_tree "root" env_sample sample_entries
              sample_tree_unfolds eq_refl eq_refl 3 st) as (_ & Hev & _);
    [vm_compute; lia | now right |].
  rewrite Hev. unfold build_events. rewrite Hc. reflexivity.
Qed.

(** ** The query of list_children *)

Lemma count_char_app (c : ascii) (a b : string) :
  count_char c (a +:+ b) = count_char c a + count_char c b.
Proof. induction a as [|c' a IH]; simpl; auto. rewrite IH. lia. Qed.

Lemma count_char_id_string (c : ascii) (s : string) :
  is_id_char c = false -> id_string s = true -> count_char c s = 0.
Proof.
  intros Hc. induction s as [|c' s IH]; simpl; auto.
  intros H. apply andb_true_iff in H as [Hc' Hs].
  destruct (Ascii.eqb_spec c' c) as [->|]; [congruence|]. now rewrite IH.
Qed.

(** X17. The folder identifier taken from the user's text cannot leave
    the quotes of the listing query: the query built from it holds
    exactly the two quote characters that enclose the identifier. *)
Theorem extracted_id_stays_quoted (url id : string) :
  extract_folder_id url = Some id ->
  list_query id =
    String APOSTROPHE id +:+ String APOSTROPHE " in parents and trashed=false" /\
  count_char APOSTROPHE id = 0 /\
  count_char APOSTROPHE (list_query id) = 2.
Proof.
  intros H.
  assert (Hid : id_string id = true).
  { revert H. unfold extract_folder_id. rewrite patterns_shape. cbn [extract_with].
    destruct (search_lit_cases "/folders/" url) as [(id1 & -> & (i & H1 & _))|[-> _]];
      [intros [= <-]; eapply captures_at_id_string; eauto|].
    destruct (search_lit_cases "/drive/folders/" url)
      as [(id2 & -> & (i & H2 & _))|[-> _]];
      [intros [= <-]; eapply captures_at_id_string; eauto|].
    destruct (search_lit_cases "id=" url) as [(id3 & -> & (i & H3 & _))|[-> _]];
      [intros [= <-]; eapply captures_at_id_string; eauto|].
    destruct (search_bare_cases url) as [(id4 & -> & (_ & H4 & _))|[-> _]];
      [now intros [= <-] | discriminate]. }
  assert (H0 : count_char APOSTROPHE id = 0)
    by (apply count_char_id_string; [reflexivity | exact Hid]).
  split; [reflexivity | split; [exact H0|]].
  unfold list_query. rewrite append_cons. cbn [count_char].
  rewrite count_char_app, H0. reflexivity.
Qed.

(** The theorem at a link with a quote after the identifier. *)
Lemma extracted_id_stays_quoted_witness :
  list_query "1AbC" =
    String APOSTROPHE "1AbC" +:+ String APOSTROPHE " in parents and trashed=false" /\
  count_char APOSTROPHE "1AbC" = 0 /\
  count_char APOSTROPHE (list_query "1AbC") = 2.
Proof.
  apply (extracted_id_stays_quoted
           ("/folders/1AbC" +:+ String APOSTROPHE " or name contains x") "1AbC").
  reflexivity.
Defined.

(** ** Pagination below the walk *)

Lemma list_children_presents (service : Drive) (fs : gmap string (list DriveItem))
    (n fuel : nat) (folder_id : string) (st : AppState) :
  presents service fs n -> n <= fuel ->
  exists st', list_children fuel service folder_id st =
              (Done (children fs folder_id), st').
Proof.
  intros Hp Hfuel. destruct (Hp folder_id) as (rs & Hwalk & Hlen & <-).
  unfold list_children.
  rewrite (list_children_loop_walk _ _ _ _ Hwalk fuel [] st) by lia. eauto.
Qed.

Lemma scan_presented (service : Drive) (fs : gmap string (list DriveItem)) (n : nat)
    (folder_id : string) (es : list Entry) :
  presents service fs n ->
  unfolds fs folder_id es ->
  forall names fuel st, list_max (map depth es) + n <= fuel ->
    exists st',
      scan_folder_recursive fuel service folder_id (folder_path names) st =
      (Done (flat_map (rows_of folder_path names) es), st').
Proof.
  intros Hp H.
  assert (Hn : 1 <= n).
  { destruct (Hp EmptyString) as (rs & Hwalk & Hlen & _).
    destruct Hwalk; simpl in Hlen; lia. }
  induction H using unfolds_mind with
    (P0 := fun items es =>
       forall names fuel acc st, list_max (map depth es) + n <= S fuel ->
         exists st',
           scan_items (scan_folder_recursive fuel service)
             (folder_path names) items acc st =
           (Done (acc ++ flat_map (rows_of folder_path names) es), st')).
  - intros names [|fuel] st Hfuel; [lia|].
    cbn [scan_folder_recursive]. rewrite bind_run.
    destruct (list_children_presents service fs n (S fuel) folder_id st Hp)
      as [st1 ->]; [lia|].
    destruct (IHunfolds names fuel [] st1 Hfuel) as [st' ->]. eauto.
  - intros names fuel acc st _. exists st. cbn. now rewrite app_nil_r.
  - intros names fuel acc st Hfuel. cbn [scan_items]. rewrite H.
    rewrite depth_cons in Hfuel.
    assert (Hle : list_max (map depth es) + n <= S fuel) by lia.
    destruct (is_audio_file (get_str item "name")) eqn:Haudio.
    + destruct (IHunfolds names fuel (acc ++ [audio_row item (folder_path names)]) st Hle)
        as [st' ->].
      exists st'. cbn [flat_map rows_of]. rewrite Haudio. now rewrite <- app_assoc.
    + destruct (IHunfolds names fuel acc st Hle) as [st' ->].
      exists st'. cbn [flat_map rows_of]. now rewrite Haudio.
  - intros names fuel acc st Hfuel. cbn [scan_items]. rewrite H.
    rewrite depth_cons, depth_folder in Hfuel.
    assert (Hsub : list_max (map depth sub) + n <= fuel) by lia.
    assert (Hle : list_max (map depth es) + n <= S fuel) by lia.
    rewrite bind_run, new_path_folder_path.
    destruct (IHunfolds (names ++ [get_str item "name"]) fuel st Hsub) as [st1 ->].
    destruct (IHunfolds0 names fuel
                (acc ++ flat_map (rows_of folder_path (names ++ [get_str item "name"])) sub)
                st1 Hle) as [st' ->].
    exists st'. cbn [flat_map]. rewrite rows_of_folder. now rewrite <- app_assoc.
Qed.

(** X18. Pagination does not show in the result of the walk: when the
    backend hands out the children of every folder of an acyclic
    hierarchy in chains of pages, however they are cut, the scan
    returns the same rows as for unpaged listings. *)
Theorem scan_ignores_page_cuts (service : Drive) (fs : gmap string (list DriveItem))
    (n : nat) (root : string) :
  acyclic fs ->
  presents service fs n ->
  exists es,
    unfolds fs root es /\
    forall fuel st, list_max (map depth es) + n <= fuel ->
      result (scan_folder_recursive fuel service root EmptyString) st =
      Done (flat_map (rows_of folder_path []) es) /\
      result (scan_folder_recursive fuel service root EmptyString) st =
      result (scan_folder_recursive fuel (tree_service fs) root EmptyString) st.
Proof.
  intros Hacyclic Hp. destruct (acyclic_unfolds fs Hacyclic root) as [es Hes].
  exists es. split; [exact Hes|]. intros fuel st Hfuel.
  assert (Hn : 1 <= n).
  { destruct (Hp EmptyString) as (rs & Hwalk & Hlen & _).
    destruct Hwalk; simpl in Hlen; lia. }
  destruct (scan_presented service fs n root es Hp Hes [] fuel st Hfuel)
    as [st1 Hrun].
  assert (Hdepth : list_max (map depth es) < fuel) by lia.
  destruct (scan_unfolds fs root es Hes [] fuel st Hdepth) as [st2 Htree].
  change (folder_path []) with EmptyString in Hrun at 1.
  change (folder_path []) with EmptyString in Htree at 1.
  unfold result. now rewrite Hrun, Htree.
Qed.

Lemma paged_sample_presents : presents paged_sample sample_tree 2.
Proof.
  intros folder_id. unfold paged_sample.
  destruct (String.eqb_spec folder_id "root") as [->|Hne].
  - exists [paged_sample "root" None; paged_sample "root" (Some "p2")].
    split; [|split; [simpl; lia | reflexivity]].
    apply (walk_next (paged_sample "root") None); [reflexivity|].
    apply (walk_last (paged_sample "root") (Some "p2")). reflexivity.
  - exists [tree_service sample_tree folder_id None].
    split; [|split; [simpl; lia|]].
    + apply String.eqb_neq in Hne.
      pose proof (walk_last (paged_sample folder_id) None) as Hw.
      unfold paged_sample in Hw. rewrite Hne in Hw. apply Hw. reflexivity.
    + unfold merged, page_items, children. cbn. now rewrite app_nil_r.
Qed.

(** The theorem at the sample with its root listing in two pages. *)
Lemma scan_ignores_page_cuts_witness :
  exists es,
    unfolds sample_tree "root" es /\
    forall fuel st, list_max (map depth es) + 2 <= fuel ->
      result (scan_folder_recursive fuel paged_sample "root" EmptyString) st =
      Done (flat_map (rows_of folder_path []) es) /\
      result (scan_folder_recursive fuel paged_sample "root" EmptyString) st =
      result (scan_folder_recursive fuel (tree_service sample_tree) "root" EmptyString) st.
Proof.
  apply (scan_ignores_page_cuts paged_sample sample_tree 2 "root").
  - exact sample_tree_acyclic.
  - exact paged_sample_presents.
Defined.

(** ** The order of the listings *)

(** Within one hierarchy, listing the same items in another order
    permutes the entries and so the rows. *)
Lemma unfolds_items_permuted (fs : gmap string (list DriveItem)) (names : list string)
    (items items' : list DriveItem) :
  Permutation items items' ->
  forall es, unfolds_items fs items es ->
    exists es', unfolds_items fs items' es' /\
      Permutation (flat_map (rows_of folder_path names) es)
                  (flat_map (rows_of folder_path names) es').
Proof.
  induction 1 as [|x l l' Hperm IH|x y l|l l' l'' H1 IH1 H2 IH2]; intros es Hes.
  - exists es. split; auto.
  - inversion Hes as [|item items0 es0 Hf H0|item items0 sub es0 Hf Hs H0]; subst;
      destruct (IH _ H0) as (es' & Hes' & Hp).
    + exists (File x :: es'). split; [now constructor|].
      cbn [flat_map]. now apply Permutation_app_head.
    + exists (Folder x sub :: es'). split; [now constructor|].
      cbn [flat_map]. now apply Permutation_app_head.
  - inversion Hes as [|i1 l1 e1 Hf1 H1|i1 l1 s1 e1 Hf1 Hs1 H1]; subst;
      inversion H1 as [|i2 l2 e2 Hf2 H2|i2 l2 s2 e2 Hf2 Hs2 H2]; subst;
      match goal with
      | |- context [flat_map _ (?ey :: ?ex :: ?e)] => exists (ex :: ey :: e)
      end;
      (split; [repeat (constructor; auto) |]);
      cbn [flat_map]; rewrite !app_assoc; apply Permutation_app_tail,
        Permutation_app_comm.
  - destruct (IH1 _ Hes) as (es1 & Hes1 & Hp1).
    destruct (IH2 _ Hes1) as (es2 & Hes2 & Hp2).
    exists es2. split; auto. now transitivity (flat_map (rows_of folder_path names) es1).
Qed.

(** The same items unfolded in two hierarchies whose subfolders give
    the same rows up to order. *)
Lemma unfolds_items_transfer (fs fs' : gmap string (list DriveItem))
    (items : list DriveItem) (es : list Entry) :
  unfolds_items fs items es ->
  (forall item sub names,
     In item items -> is_folder item = true ->
     unfolds fs (get_str item "id") sub ->
     exists sub', unfolds fs' (get_str item "id") sub' /\
       Permutation (flat_map (rows_of folder_path names) sub)
                   (flat_map (rows_of folder_path names) sub')) ->
  forall names,
    exists es', unfolds_items fs' items es' /\
      Permutation (flat_map (rows_of folder_path names) es)
                  (flat_map (rows_of folder_path names) es').
Proof.
  induction 1 as [|item items es Hf Hes IH|item items sub es Hf Hsub Hes IH];
    intros Hrec names.
  - exists []. split; [constructor | reflexivity].
  - destruct (IH (fun it s n Hin => Hrec it s n (or_intror Hin)) names)
      as (es' & Hes' & Hp).
    exists (File item :: es'). split; [now constructor|].
    cbn [flat_map]. now apply Permutation_app_head.
  - destruct (IH (fun it s n Hin => Hrec it s n (or_intror Hin)) names)
      as (es' & Hes' & Hp).
    destruct (Hrec item sub (names ++ [get_str item "name"]) (or_introl eq_refl) Hf Hsub)
      as (sub' & Hsub' & Hps).
    exists (Folder item sub' :: es'). split; [now constructor|].
    cbn [flat_map]. rewrite !rows_of_folder. now apply Permutation_app.
Qed.

Lemma unfolds_reordered (fs fs' : gmap string (list DriveItem)) :
  acyclic fs ->
  (forall folder_id, Permutation (children fs folder_id) (children fs' folder_id)) ->
  forall folder_id es names,
    unfolds fs folder_id es ->
    exists es', unfolds fs' folder_id es' /\
      Permutation (flat_map (rows_of folder_path names) es)
                  (flat_map (rows_of folder_path names) es').
Proof.
  intros [rank Hrank] Hperm.
  assert (H : forall n folder_id es names,
    rank folder_id < n -> unfolds fs folder_id es ->
    exists es', unfolds fs' folder_id es' /\
      Permutation (flat_map (rows_of folder_path names) es)
                  (flat_map (rows_of folder_path names) es')).
  { induction n as [|n IH]; intros folder_id es names Hn Hes; [lia|].
    inversion Hes as [f es0 Hitems]; subst.
    destruct (unfolds_items_transfer fs fs' _ _ Hitems) with (names := names)
      as (es1 & Hes1 & Hp1).
    - intros item sub names' Hin Hf Hsub. apply IH; auto.
      unfold children in Hin. destruct (fs !! folder_id) as [items|] eqn:Hl.
      + specialize (Hrank folder_id items item Hl Hin Hf). lia.
      + destruct Hin.
    - destruct (unfolds_items_permuted fs' names _ _ (Hperm folder_id) es1 Hes1)
        as (es' & Hes' & Hp').
      exists es'. split; [now constructor|]. now transitivity
        (flat_map (rows_of folder_path names) es1). }
  intros folder_id es names. apply (H (S (rank folder_id))). lia.
Qed.

(** X19. The rows do not depend on the order in which the backend lists
    the children: two acyclic hierarchies whose listings hold the same
    items, each in any order, give the same rows up to their order. *)
Theorem scan_rows_up_to_listing_order (fs fs' : gmap string (list DriveItem))
    (root : string) :
  acyclic fs ->
  (forall folder_id, Permutation (children fs folder_id) (children fs' folder_id)) ->
  exists rows rows' bound,
    Permutation rows rows' /\
    forall fuel st, bound < fuel ->
      result (scan_folder_recursive fuel (tree_service fs) root EmptyString) st =
        Done rows /\
      result (scan_folder_recursive fuel (tree_service fs') root EmptyString) st =
        Done rows'.
Proof.
  intros Hacyclic Hperm.
  destruct (acyclic_unfolds fs Hacyclic root) as [es Hes].
  destruct (unfolds_reordered fs fs' Hacyclic Hperm root es [] Hes) as (es' & Hes' & Hp).
  exists (flat_map (rows_of folder_path []) es), (flat_map (rows_of folder_path []) es'),
    (Nat.max (list_max (map depth es)) (list_max (map depth es'))).
  split; [exact Hp|]. intros fuel st Hfuel.
  destruct (scan_unfolds fs root es Hes [] fuel st) as [st1 H1]; [lia|].
  destruct (scan_unfolds fs' root es' Hes' [] fuel st) as [st2 H2]; [lia|].
  change (folder_path []) with EmptyString in H1 at 1.
  change (folder_path []) with EmptyString in H2 at 1.
  unfold result. now rewrite H1, H2.
Qed.

Lemma sample_reordered_children (folder_id : string) :
  Permutation (children sample_tree folder_id) (children sample_reordered folder_id).
Proof.
  unfold children, sample_tree, sample_reordered.
  rewrite !lookup_insert. repeat case_decide; subst; cbn; try reflexivity.
  apply (Permutation_rev [mk_file "1" "intro.mp3"; mk_folder "A" "Albums";
                          mk_file "2" "notes.txt"]).
Qed.

(** The theorem at the sample and the sample with its root listing
    turned around. *)
Lemma scan_rows_up_to_listing_order_witness :
  exists rows rows' bound,
    Permutation rows rows' /\
    forall fuel st, bound < fuel ->
      result (scan_folder_recursive fuel (tree_service sample_tree) "root"
                EmptyString) st = Done rows /\
      result (scan_folder_recursive fuel (tree_service sample_reordered) "root"
                EmptyString) st = Done rows'.
Proof.
  apply (scan_rows_up_to_listing_order sample_tree sample_reordered "root").
  - exact sample_tree_acyclic.
  - exact sample_reordered_children.
Defined.
